(** * The move-decision engine of the [cycles] bot client

    A shallow embedding of [BotClient] (the aggressive client and the
    conservative client [client_sebastian_perilla.cpp]) and the proofs of
    the properties its specification states.

    Coordinates and areas are integers of [Z]: every coordinate the engine
    adds one to lies inside the grid or next to it whenever the result is
    used, and every area is at most [gridWidth * gridHeight].  The distance
    and the score of the aggressive client are computed on coordinates the
    snapshot supplies, so there the 32-bit [int] arithmetic is written out
    with its wrap-around ([wrap_int]). *)

From stdpp Require Import base decidable option list sets gmap strings sorting.
From Stdlib Require Import ZArith Lia.

Local Open Scope Z_scope.
Local Set Warnings "-clear-no-such-hyp".

(** ** Outcomes of engine operations

    The engine's operations either produce a value, or call the occupancy
    lookup outside the grid (a programming error by the lookup's contract),
    or exhaust the iteration budget the model gives to the flood-fill
    [while] loop. *)

Inductive outcome (A : Type) : Type :=
| Ok (a : A)
| OutOfBounds
| OutOfFuel.

Arguments Ok {A} a.
Arguments OutOfBounds {A}.
Arguments OutOfFuel {A}.

Global Instance outcome_ret : MRet outcome := λ A a, Ok a.

Global Instance outcome_bind : MBind outcome := λ A B k m,
  match m with
  | Ok a => k a
  | OutOfBounds => OutOfBounds
  | OutOfFuel => OutOfFuel
  end.

(** Monadic left fold: a [for] loop over an initializer list whose body can
    fail. *)
Fixpoint ofoldl {A B} (f : A → B → outcome A) (a : A) (l : list B) : outcome A :=
  match l with
  | [] => Ok a
  | x :: l' => a' ← f a x; ofoldl f a' l'
  end.

(** ** Data model *)

(** [sf::Vector2i] *)
Abbreviation Cell := (Z * Z)%type.

Definition vadd (a b : Cell) : Cell := (a.1 + b.1, a.2 + b.2).

Inductive Direction : Type := north | east | south | west.

Global Instance Direction_eq_dec : EqDecision Direction.
Proof. solve_decision. Defined.

(** Modelled from the spec: [getDirectionVector] is declared in the header
    [utils.h], which is not part of the sources at hand.  Each direction maps
    to one fixed unit delta; from a head at (0,0) the cells (0,-1) and (-1,0)
    are the ones North and West lead to. *)
Definition getDirectionVector (d : Direction) : Cell :=
  match d with
  | north => (0, -1)
  | east => (1, 0)
  | south => (0, 1)
  | west => (-1, 0)
  end.

(** Modelled from the spec: [getDirectionValue] is declared in [utils.h];
    the code of a direction is a fixed small integer, here its rank in the
    enumeration order. *)
Definition getDirectionValue (d : Direction) : Z :=
  match d with
  | north => 0
  | east => 1
  | south => 2
  | west => 3
  end.

(** The initializer list every loop of the client iterates over. *)
Definition all_directions : list Direction := [north; east; south; west].

Record Player : Type := mkPlayer {
  player_name : string;
  position : Cell
}.

(** Modelled from the spec: [GameState] is declared in [api.h]; it is a
    rectangular occupancy field (0 = empty) with the roster of players. *)
Record GameState : Type := mkGameState {
  gridWidth : Z;
  gridHeight : Z;
  grid : Cell → Z;
  players : list Player
}.

(** Modelled from the spec: true iff 0 ≤ x < width and 0 ≤ y < height. *)
Definition isInsideGrid (st : GameState) (p : Cell) : bool :=
  (0 <=? p.1) && (p.1 <? gridWidth st) && (0 <=? p.2) && (p.2 <? gridHeight st).

(** Modelled from the spec: the occupancy marker of a cell, defined only for
    cells inside the bounds; asking outside them is the error [OutOfBounds]. *)
Definition getGridCell (st : GameState) (p : Cell) : outcome Z :=
  if isInsideGrid st p then Ok (grid st p) else OutOfBounds.

(** The fields of [class BotClient] ([connection] is the external
    collaborator and carries no data the engine reads). *)
Record BotClient : Type := mkBotClient {
  name : string;
  state : GameState;
  my_player : Player;
  rng : Z;
  previousDirection : Z;
  fallbackCounter : Z
}.

(** ** Grid queries used by the engine *)

(** [state.isInsideGrid(p) && state.getGridCell(p) == 0], with the
    short-circuit of [&&]. *)
Definition inside_and_empty (st : GameState) (p : Cell) : outcome bool :=
  if isInsideGrid st p
  then c ← getGridCell st p; Ok (c =? 0)
  else Ok false.

Definition is_valid_move (b : BotClient) (direction : Direction) : outcome bool :=
  let new_pos := vadd (position (my_player b)) (getDirectionVector direction) in
  inside_and_empty (state b) new_pos.

(** ** Territory estimator *)

(** [visited.count(current) || !state.isInsideGrid(current) ||
     state.getGridCell(current) != 0], with the short-circuit of [||]. *)
Definition skip_cell (st : GameState) (visited : gset Cell) (current : Cell)
  : outcome bool :=
  if bool_decide (current ∈ visited) then Ok true
  else if negb (isInsideGrid st current) then Ok true
  else c ← getGridCell st current; Ok (negb (c =? 0)).

Definition neighbours (current : Cell) : list Cell :=
  (λ d, vadd current (getDirectionVector d)) <$> all_directions.

(** The [while (!toVisit.empty())] loop; [fuel] bounds the iterations. *)
Fixpoint bfs_loop (st : GameState) (fuel : nat) (toVisit : list Cell)
    (visited : gset Cell) (area : Z) : outcome Z :=
  match fuel with
  | O => OutOfFuel
  | S fuel' =>
    match toVisit with
    | [] => Ok area
    | current :: rest =>
      skip ← skip_cell st visited current;
      if skip : bool then bfs_loop st fuel' rest visited area
      else bfs_loop st fuel' (rest ++ neighbours current)
                    ({[current]} ∪ visited) (area + 1)
    end
  end.

(** An iteration budget no run exceeds: one pop for the start cell and four
    for each cell of the grid. *)
Definition bfs_fuel (st : GameState) : nat :=
  S (S (4 * (Z.to_nat (gridWidth st) * Z.to_nat (gridHeight st)))).

Definition calculateAccessibleArea (b : BotClient) (start : Cell) : outcome Z :=
  bfs_loop (state b) (bfs_fuel (state b)) [start] ∅ 0.

(** The cells the loop expands (marks visited, counts and whose neighbours it
    enqueues), in order: a ghost trace of [bfs_loop]. *)
Fixpoint bfs_expanded (st : GameState) (fuel : nat) (toVisit : list Cell)
    (visited : gset Cell) : list Cell :=
  match fuel with
  | O => []
  | S fuel' =>
    match toVisit with
    | [] => []
    | current :: rest =>
      match skip_cell st visited current with
      | Ok false =>
          current :: bfs_expanded st fuel' (rest ++ neighbours current)
                                  ({[current]} ∪ visited)
      | _ => bfs_expanded st fuel' rest visited
      end
    end
  end.

(** ** Opponent predictor *)

Definition predict_step (b : BotClient) (opponentHead : Cell)
    (acc : Cell * Z) (d : Direction) : outcome (Cell * Z) :=
  let '(bestMove, maxArea) := acc in
  let candidateMove := vadd opponentHead (getDirectionVector d) in
  ok ← inside_and_empty (state b) candidateMove;
  if ok : bool then
    area ← calculateAccessibleArea b candidateMove;
    if maxArea <? area then Ok (candidateMove, area) else Ok (bestMove, maxArea)
  else Ok (bestMove, maxArea).

Definition predictOpponentMove (b : BotClient) (opponentHead : Cell)
  : outcome Cell :=
  r ← ofoldl (predict_step b opponentHead) (opponentHead, 0) all_directions;
  Ok r.1.

(** ** Move selection *)

(** The requirement [std::sort] puts on its comparator. *)
Record StrictWeakOrder {A} (comp : A → A → bool) : Prop := {
  swo_irrefl : ∀ x, comp x x = false;
  swo_trans : ∀ x y z, comp x y = true → comp y z = true → comp x z = true;
  swo_cotrans : ∀ x y z, comp x z = true → comp x y = true ∨ comp y z = true
}.

(** What [std::sort] promises for such a comparator: the
    range afterwards is a rearrangement of the range before, and no element
    compares before one that precedes it.  The relative order of equivalent
    elements is not part of the contract. *)
Class StdSort : Type := {
  std_sort : ∀ {A : Type}, (A → A → bool) → list A → list A;
  std_sort_perm : ∀ (A : Type) (comp : A → A → bool) (l : list A),
    std_sort comp l ≡ₚ l;
  std_sort_sorted : ∀ (A : Type) (comp : A → A → bool) (l : list A),
    StrictWeakOrder comp →
    StronglySorted (λ a c, comp c a = false) (std_sort comp l)
}.

(** The lambda [[](auto &a, auto &b) { return a.second > b.second; }]. *)
Definition by_score_desc (a c : Direction * Z) : bool := c.2 <? a.2.

(** [moves.front()] is read after the sort; the sort keeps the vector
    non-empty, so the default below is never taken. *)
Definition findBestMove `{StdSort} (moves : list (Direction * Z)) : Direction :=
  match moves with
  | [] => north
  | _ :: _ => default north (fst <$> head (std_sort by_score_desc moves))
  end.

Definition safe_step (b : BotClient) (moves : list (Direction * Z))
    (dir : Direction) : outcome (list (Direction * Z)) :=
  ok ← is_valid_move b dir;
  if ok : bool then
    let new_pos := vadd (position (my_player b)) (getDirectionVector dir) in
    accessibleArea ← calculateAccessibleArea b new_pos;
    Ok (moves ++ [(dir, accessibleArea)])
  else Ok moves.

Definition findSafeDirection `{StdSort} (b : BotClient) : outcome Direction :=
  moves ← ofoldl (safe_step b) [] all_directions;
  Ok (findBestMove moves).

Definition manhattan (a c : Cell) : Z := Z.abs (a.1 - c.1) + Z.abs (a.2 - c.2).

(** The range of a 32-bit [int] and the value an [int] operation yields for
    the mathematical result [z] (two's complement wrap-around). *)
Definition INT_MIN : Z := -2147483648.
Definition INT_MAX : Z := 2147483647.

Definition wrap_int (z : Z) : Z := (z + 2147483648) mod 4294967296 - 2147483648.

Definition int_add (x y : Z) : Z := wrap_int (x + y).
Definition int_sub (x y : Z) : Z := wrap_int (x - y).
Definition int_abs (x : Z) : Z := wrap_int (Z.abs x).

Definition aggressive_step (b : BotClient) (target : Cell)
    (moves : list (Direction * Z)) (dir : Direction)
  : outcome (list (Direction * Z)) :=
  let new_pos := vadd (position (my_player b)) (getDirectionVector dir) in
  ok ← is_valid_move b dir;
  if ok : bool then
    let distance := int_add (int_abs (int_sub new_pos.1 target.1))
                            (int_abs (int_sub new_pos.2 target.2)) in
    area ← calculateAccessibleArea b new_pos;
    let score := int_sub area distance in
    Ok (moves ++ [(dir, score)])
  else Ok moves.

Definition aggressive_moves (b : BotClient) (target : Cell)
  : outcome (list (Direction * Z)) :=
  ofoldl (aggressive_step b target) [] all_directions.

Definition decideAggressiveMove `{StdSort} (b : BotClient)
    (target predictedHead : Cell) : outcome Direction :=
  moves ← aggressive_moves b target;
  Ok (findBestMove moves).

(** Modelled from the spec: [findNearestOpponentHead] is called by
    [decideMove] but its body is not part of the sources at hand.  It scans
    the players other than the controlled one (matched by name), keeps the
    head with the least Manhattan distance to the controlled player's head,
    the first encountered winning ties, and reports (-1,-1) when there is no
    other player. *)
Definition nearest_step (b : BotClient) (acc : Cell * option Player)
    (p : Player) : Cell * option Player :=
  if String.eqb (player_name p) (name b) then acc
  else
    match acc.2 with
    | None => (position p, Some p)
    | Some _ =>
        if manhattan (position p) (position (my_player b))
             <? manhattan acc.1 (position (my_player b))
        then (position p, Some p) else acc
    end.

Definition findNearestOpponentHead (b : BotClient) : Cell * option Player :=
  foldl (nearest_step b) ((-1, -1), None) (players (state b)).

(** ** Decision driver *)

(** [decideMove] of the aggressive client. *)
Definition decideMove `{StdSort} (b : BotClient) : outcome Direction :=
  let '(nearestHead, nearestOpponent) := findNearestOpponentHead b in
  if bool_decide (nearestHead = (-1, -1)) then findSafeDirection b
  else
    predictedMove ← predictOpponentMove b nearestHead;
    decideAggressiveMove b predictedMove nearestHead.

(** [decideMove] of [client_sebastian_perilla.cpp]. *)
Definition decideMove_conservative `{StdSort} (b : BotClient)
  : outcome Direction :=
  findSafeDirection b.

(** [receiveGameState], given the snapshot the connection delivers. *)
Definition receiveGameState (incoming : GameState) (b : BotClient) : BotClient :=
  let my_player' :=
    match find (λ p, String.eqb (player_name p) (name b)) (players incoming) with
    | Some player => player
    | None => my_player b
    end in
  mkBotClient (name b) incoming my_player' (rng b) (previousDirection b)
              (fallbackCounter b).

(** What the client hands to the connection. *)
Inductive Event : Type :=
| SendMove (d : Direction).

(** [sendMove]: the new client state and the event emitted. *)
Definition sendMove `{StdSort} (b : BotClient) : outcome (BotClient * list Event) :=
  move ← decideMove b;
  Ok (mkBotClient (name b) (state b) (my_player b) (rng b)
                  (getDirectionValue move) (fallbackCounter b),
      [SendMove move]).

(** One iteration of the loop in [run]. *)
Definition tick `{StdSort} (incoming : GameState) (b : BotClient)
  : outcome (BotClient * list Event) :=
  sendMove (receiveGameState incoming b).

(** [sendMove] and the loop iteration of [client_sebastian_perilla.cpp]. *)
Definition sendMove_conservative `{StdSort} (b : BotClient)
  : outcome (BotClient * list Event) :=
  move ← decideMove_conservative b;
  Ok (mkBotClient (name b) (state b) (my_player b) (rng b)
                  (getDirectionValue move) (fallbackCounter b),
      [SendMove move]).

Definition tick_conservative `{StdSort} (incoming : GameState) (b : BotClient)
  : outcome (BotClient * list Event) :=
  sendMove_conservative (receiveGameState incoming b).

(** Test grids. *)
Definition empty_grid (w h : Z) (ps : list Player) : GameState :=
  mkGameState w h (λ _, 0) ps.

Definition grid_of_rows (rows : list (list Z)) (ps : list Player) : GameState :=
  mkGameState
    (Z.of_nat (length (default [] (head rows))))
    (Z.of_nat (length rows))
    (λ p, default 0 (default [] (rows !! Z.to_nat p.2) !! Z.to_nat p.1))
    ps.

Definition bot_at (nm : string) (st : GameState) (pos : Cell) : BotClient :=
  mkBotClient nm st (mkPlayer nm pos) 0 (-1) 0.

(** A snapshot whose roster lacks the controlled player "me", and the
    snapshot of the tick before it. *)
Definition snapshot_without_me : GameState :=
  grid_of_rows [[0;0;0]; [0;2;0]; [0;0;0]] [mkPlayer "rival" (1, 1)].

Definition snapshot_before : GameState :=
  grid_of_rows [[1;0;0]; [0;2;0]; [0;0;0]]
    [mkPlayer "me" (0, 0); mkPlayer "rival" (1, 1)].

(** ** Notions the properties are stated with *)

(** A cell is passable iff it lies inside the grid and its marker is 0. *)
Definition passable (st : GameState) (c : Cell) : bool :=
  isInsideGrid st c && (grid st c =? 0).

(** Cells joined to [start] by a path of passable cells, each step going to
    one of the four cardinal neighbours. *)
Inductive reachable (st : GameState) (start : Cell) : Cell → Prop :=
| reachable_start :
    passable st start = true → reachable st start start
| reachable_step (c : Cell) (d : Direction) :
    reachable st start c →
    passable st (vadd c (getDirectionVector d)) = true →
    reachable st start (vadd c (getDirectionVector d)).

(** Every cell inside the bounds, column by column. *)
Definition all_cells (st : GameState) : list Cell :=
  list_prod (seqZ 0 (gridWidth st)) (seqZ 0 (gridHeight st)).

Definition passable_cells (st : GameState) : gset Cell :=
  list_to_set (filter (λ c, passable st c = true) (all_cells st)).

(** [d'] comes before [d] in the enumeration {N, E, S, W}. *)
Definition earlier (d' d : Direction) : Prop :=
  getDirectionValue d' < getDirectionValue d.

(** The count the flood fill returns from [c]. *)
Definition area_of (b : BotClient) (c : Cell) : Z :=
  match calculateAccessibleArea b c with
  | Ok n => n
  | _ => 0
  end.

(** The cell a move in direction [d] leads the controlled player to. *)
Definition new_pos (b : BotClient) (d : Direction) : Cell :=
  vadd (position (my_player b)) (getDirectionVector d).

(** The loop bodies of the engine as plain functions. *)
Definition predict_pure (b : BotClient) (opponentHead : Cell)
    (acc : Cell * Z) (d : Direction) : Cell * Z :=
  let c := vadd opponentHead (getDirectionVector d) in
  if passable (state b) c && (acc.2 <? area_of b c)
  then (c, area_of b c) else acc.

Definition safe_candidate (b : BotClient) (d : Direction)
  : option (Direction * Z) :=
  if passable (state b) (new_pos b d)
  then Some (d, area_of b (new_pos b d)) else None.

(** The score [decideAggressiveMove] gives to a candidate cell of area
    [area]: the [int] computation of [area - distance]. *)
Definition aggressive_score (area : Z) (cell target : Cell) : Z :=
  int_sub area (int_add (int_abs (int_sub cell.1 target.1))
                        (int_abs (int_sub cell.2 target.2))).

Definition aggressive_candidate (b : BotClient) (target : Cell) (d : Direction)
  : option (Direction * Z) :=
  if passable (state b) (new_pos b d)
  then Some (d, aggressive_score (area_of b (new_pos b d)) (new_pos b d) target)
  else None.

(** ** The flood fill that filters at enqueue time

    Follows the specification's words rather than the source: a neighbour is
    tested for bounds, occupancy and prior visitation when it is about to be
    enqueued, and is marked visited at that moment, so that the queue only
    ever holds distinct passable cells and every dequeued cell is counted. *)
Definition enqueue_if_new (st : GameState) (acc : list Cell * gset Cell)
    (n : Cell) : list Cell * gset Cell :=
  if passable st n && negb (bool_decide (n ∈ acc.2))
  then (acc.1 ++ [n], {[n]} ∪ acc.2)
  else acc.

Fixpoint bfs_enqueue_filter_loop (st : GameState) (fuel : nat)
    (toVisit : list Cell) (visited : gset Cell) (area : Z) : outcome Z :=
  match fuel with
  | O => OutOfFuel
  | S fuel' =>
    match toVisit with
    | [] => Ok area
    | current :: rest =>
      let qv := foldl (enqueue_if_new st) (rest, visited) (neighbours current) in
      bfs_enqueue_filter_loop st fuel' qv.1 qv.2 (area + 1)
    end
  end.

Definition reachableArea_enqueue_filter (st : GameState) (start : Cell)
  : outcome Z :=
  if passable st start
  then bfs_enqueue_filter_loop st (bfs_fuel st) [start] {[start]} 0
  else Ok 0.

(** For contrast: the tests moved to enqueue time while a cell is still
    marked visited only when it is dequeued, as in the source.  A cell can
    then enter the queue once from each of its neighbours. *)
Fixpoint bfs_mark_late_loop (st : GameState) (fuel : nat) (toVisit : list Cell)
    (visited : gset Cell) (area : Z) : outcome Z :=
  match fuel with
  | O => OutOfFuel
  | S fuel' =>
    match toVisit with
    | [] => Ok area
    | current :: rest =>
      let visited' := {[current]} ∪ visited in
      bfs_mark_late_loop st fuel'
        (rest ++ filter (λ n, passable st n = true ∧ n ∉ visited')
                        (neighbours current))
        visited' (area + 1)
    end
  end.

(** ** Loop invariants and selection predicates *)

(** What holds of the work queue and the visited set at every iteration of
    the loop started from [start]. *)
Definition bfs_inv (st : GameState) (start : Cell) (q : list Cell)
    (vis : gset Cell) : Prop :=
  (∀ c, c ∈ vis → reachable st start c) ∧
  (∀ c, c ∈ q → passable st c = true → reachable st start c) ∧
  (passable st start = true → start ∈ vis ∨ start ∈ q) ∧
  (∀ c d, c ∈ vis → passable st (vadd c (getDirectionVector d)) = true →
     vadd c (getDirectionVector d) ∈ vis ∨ vadd c (getDirectionVector d) ∈ q).

(** The same for the loop that filters at enqueue time. *)
Definition enq_inv (st : GameState) (start : Cell) (q : list Cell)
    (vis : gset Cell) : Prop :=
  (∀ c, c ∈ vis → reachable st start c) ∧
  (∀ c, c ∈ q → c ∈ vis) ∧
  start ∈ vis ∧
  (∀ c d, c ∈ vis →
     c ∈ q ∨ (passable st (vadd c (getDirectionVector d)) = true →
              vadd c (getDirectionVector d) ∈ vis)).

(** [d] is the direction of a candidate of [moves] whose score no candidate
    exceeds and no candidate placed before it attains. *)
Definition earliest_best (moves : list (Direction * Z)) (d : Direction) : Prop :=
  ∃ pre s post,
    moves = pre ++ (d, s) :: post ∧
    Forall (λ m, m.2 < s) pre ∧
    Forall (λ m, m.2 ≤ s) post.

(** ** [std::sort] on short ranges

    The sort the GNU C++ library runs on a range of at most 16 elements
    ([_S_threshold]): [__introsort_loop] does nothing on such a range and
    [__final_insertion_sort] is a single [__insertion_sort].  The candidate
    vectors of the client hold at most four elements. *)

(** [__unguarded_linear_insert]: [val] travels towards the front past every
    element it compares before; [before] is the part of the range in front
    of it, the nearest element first. *)
Fixpoint unguarded_linear_insert {A} (comp : A → A → bool) (val : A)
    (before : list A) : list A :=
  match before with
  | [] => [val]
  | next :: rest =>
      if comp val next then next :: unguarded_linear_insert comp val rest
      else val :: next :: rest
  end.

(** One iteration of the loop of [__insertion_sort]: [sorted] is the range
    in front of [*i], [val] the element at [i]. *)
Definition insertion_sort_step {A} (comp : A → A → bool) (sorted : list A)
    (val : A) : list A :=
  match sorted with
  | [] => [val]
  | first :: _ =>
      if comp val first then val :: sorted
      else reverse (unguarded_linear_insert comp val (reverse sorted))
  end.

(** [__insertion_sort]: the elements are taken from the front one after the
    other (the first alone is the initial sorted range). *)
Definition insertion_sort {A} (comp : A → A → bool) (l : list A) : list A :=
  foldl (insertion_sort_step comp) [] l.

(** ** Two more sorting procedures that meet the [std::sort] contract *)

(** Insertion that stops in front of the first element not strictly better:
    equivalent elements keep their order (a stable sort, which is also what
    the insertion sort of the usual library implementations yields on short
    ranges). *)
Fixpoint insert_stable {A} (comp : A → A → bool) (x : A) (l : list A) : list A :=
  match l with
  | [] => [x]
  | y :: l' => if comp y x then y :: insert_stable comp x l' else x :: y :: l'
  end.

Definition sort_stable {A} (comp : A → A → bool) (l : list A) : list A :=
  foldr (insert_stable comp) [] l.

(** Insertion that walks past equivalent elements: still a sort, but
    equivalent elements come out in reverse order. *)
Fixpoint insert_past_ties {A} (comp : A → A → bool) (x : A) (l : list A)
  : list A :=
  match l with
  | [] => [x]
  | y :: l' => if comp x y then x :: y :: l' else y :: insert_past_ties comp x l'
  end.

Definition sort_reversing_ties {A} (comp : A → A → bool) (l : list A) : list A :=
  foldr (insert_past_ties comp) [] l.

(** * Properties *)

(** ** Grid queries *)

Lemma inside_and_empty_ok st p : inside_and_empty st p = Ok (passable st p).
Proof.
  unfold inside_and_empty, getGridCell, passable.
  destruct (isInsideGrid st p); reflexivity.
Qed.

Lemma is_valid_move_ok b d :
  is_valid_move b d
  = Ok (passable (state b) (vadd (position (my_player b)) (getDirectionVector d))).
Proof. apply inside_and_empty_ok. Qed.

Lemma skip_cell_ok st vis c :
  skip_cell st vis c = Ok (bool_decide (c ∈ vis) || negb (passable st c)).
Proof.
  unfold skip_cell, getGridCell, passable.
  destruct (bool_decide (c ∈ vis)); [reflexivity|].
  destruct (isInsideGrid st c); reflexivity.
Qed.

Lemma passable_inside st c : passable st c = true → isInsideGrid st c = true.
Proof. unfold passable. intros [? _]%andb_true_iff. done. Qed.

Lemma isInsideGrid_spec st c :
  isInsideGrid st c = true
  ↔ 0 ≤ c.1 < gridWidth st ∧ 0 ≤ c.2 < gridHeight st.
Proof. unfold isInsideGrid. rewrite !andb_true_iff. lia. Qed.

Lemma elem_of_all_cells st c : c ∈ all_cells st ↔ isInsideGrid st c = true.
Proof.
  unfold all_cells. rewrite list_elem_of_In. destruct c as [x y].
  rewrite in_prod_iff, <- !list_elem_of_In, !elem_of_seqZ, isInsideGrid_spec.
  simpl. lia.
Qed.

Lemma NoDup_list_prod {A B} (l : list A) (k : list B) :
  NoDup l → NoDup k → NoDup (list_prod l k).
Proof.
  intros Hl Hk. induction Hl as [|x l Hx Hl IH]; simpl; [constructor|].
  apply NoDup_app. split_and!.
  - apply (NoDup_fmap_2 _). done.
  - intros [a c] (y & [= -> ->] & _)%list_elem_of_fmap Hin.
    apply list_elem_of_In, in_prod_iff in Hin as [Hin _].
    apply Hx, list_elem_of_In, Hin.
  - done.
Qed.

Lemma NoDup_all_cells st : NoDup (all_cells st).
Proof. apply NoDup_list_prod; apply NoDup_seqZ. Qed.

Lemma length_all_cells st :
  length (all_cells st)
  = (Z.to_nat (gridWidth st) * Z.to_nat (gridHeight st))%nat.
Proof. unfold all_cells. by rewrite length_prod, !length_seqZ. Qed.

Lemma elem_of_passable_cells st c :
  c ∈ passable_cells st ↔ passable st c = true.
Proof.
  unfold passable_cells.
  rewrite elem_of_list_to_set, list_elem_of_filter, elem_of_all_cells.
  split; [tauto|]. intros H. split; [done|]. by apply passable_inside.
Qed.

Lemma size_passable_cells st :
  (size (passable_cells st)
   ≤ Z.to_nat (gridWidth st) * Z.to_nat (gridHeight st))%nat.
Proof.
  unfold passable_cells.
  rewrite size_list_to_set by apply NoDup_filter, NoDup_all_cells.
  rewrite <- length_all_cells. apply length_filter.
Qed.

(** ** Counting with the set of passable cells *)

Lemma size_unvisited_shrinks (P A vis : gset Cell) :
  A ⊆ P → A ## vis →
  (size (P ∖ (A ∪ vis)) + size A = size (P ∖ vis))%nat.
Proof.
  intros HA Hdisj.
  assert (P ∖ vis = A ∪ P ∖ (A ∪ vis)) as ->.
  { apply set_eq. intros c.
    rewrite elem_of_union, !elem_of_difference, elem_of_union.
    destruct (decide (c ∈ A)) as [Hc|Hc]; [|tauto].
    specialize (HA c Hc). specialize (Hdisj c Hc). tauto. }
  rewrite (size_union A (P ∖ (A ∪ vis))); [lia|].
  intros c Hc. rewrite elem_of_difference, elem_of_union. tauto.
Qed.

Lemma reachable_passable st start c :
  reachable st start c → passable st c = true.
Proof. by destruct 1. Qed.

Lemma elem_of_neighbours c n :
  n ∈ neighbours c ↔ ∃ d, n = vadd c (getDirectionVector d).
Proof.
  unfold neighbours. rewrite list_elem_of_fmap. split.
  - intros (d & -> & _). by exists d.
  - intros (d & ->). exists d. split; [done|].
    unfold all_directions. destruct d; set_solver.
Qed.

(** ** The flood fill of the source *)

Lemma bfs_inv_init st start : bfs_inv st start [start] ∅.
Proof.
  split_and!.
  - set_solver.
  - intros c ->%list_elem_of_singleton Hp. by constructor.
  - intros _. right. set_solver.
  - set_solver.
Qed.

Lemma bfs_inv_skip st start current rest vis :
  bfs_inv st start (current :: rest) vis →
  current ∈ vis ∨ passable st current = false →
  bfs_inv st start rest vis.
Proof.
  intros (Hv & Hq & Hs & Hc) Hskip. split_and!.
  - done.
  - intros c Hin. apply Hq. by right.
  - intros Hp. destruct (Hs Hp) as [?|[->|?]%elem_of_cons]; auto.
    destruct Hskip as [?|Hn]; [auto | congruence].
  - intros c d Hin Hp.
    destruct (Hc c d Hin Hp) as [?|[Heq|?]%elem_of_cons]; auto.
    destruct Hskip as [?|Hn]; [left; congruence | congruence].
Qed.

Lemma bfs_inv_expand st start current rest vis :
  bfs_inv st start (current :: rest) vis →
  passable st current = true →
  bfs_inv st start (rest ++ neighbours current) ({[current]} ∪ vis).
Proof.
  intros (Hv & Hq & Hs & Hc) Hp.
  assert (reachable st start current) as Hr by (apply Hq; [by left | done]).
  split_and!.
  - intros c [->%elem_of_singleton|?]%elem_of_union; auto.
  - intros c [?|Hn]%elem_of_app Hpc.
    + apply Hq; [by right | done].
    + apply elem_of_neighbours in Hn as [d ->]. by constructor.
  - intros Hps. destruct (Hs Hps) as [?|[->|?]%elem_of_cons].
    + left. set_solver.
    + left. set_solver.
    + right. apply elem_of_app. by left.
  - intros c d [->%elem_of_singleton|Hin]%elem_of_union Hpc.
    + right. apply elem_of_app. right. apply elem_of_neighbours. by exists d.
    + destruct (Hc c d Hin Hpc) as [?|[Heq|?]%elem_of_cons].
      * left. set_solver.
      * left. rewrite Heq. set_solver.
      * right. apply elem_of_app. by left.
Qed.

Lemma bfs_inv_exit st start vis c :
  bfs_inv st start [] vis → c ∈ vis ↔ reachable st start c.
Proof.
  intros (Hv & _ & Hs & Hc). split; [apply Hv|].
  induction 1 as [Hp|c d Hr IH Hp].
  - destruct (Hs Hp) as [?|Hin]; [done | by apply elem_of_nil in Hin].
  - destruct (Hc c d IH Hp) as [?|Hin]; [done | by apply elem_of_nil in Hin].
Qed.

(** The loop returns, within the budget, the initial count plus the number
    of reachable cells not yet visited. *)
Lemma bfs_loop_correct st start fuel : ∀ q vis area,
  bfs_inv st start q vis →
  (length q + 4 * size (passable_cells st ∖ vis) < fuel)%nat →
  ∃ vf : gset Cell,
    (∀ c, c ∈ vf ↔ reachable st start c) ∧
    bfs_loop st fuel q vis area
    = Ok (area + Z.of_nat (size vf) - Z.of_nat (size vis)).
Proof.
  induction fuel as [|fuel IH]; intros q vis area Hinv Hfuel; [lia|].
  destruct q as [|current rest]; simpl.
  { exists vis. split; [intros c; by apply bfs_inv_exit|]. f_equal. lia. }
  rewrite skip_cell_ok. simpl.
  destruct (bool_decide (current ∈ vis) || negb (passable st current)) eqn:Hskip.
  - apply IH.
    + eapply bfs_inv_skip; [done|].
      apply orb_true_iff in Hskip as [?%bool_decide_eq_true|?%negb_true_iff]; auto.
    + simpl in Hfuel. lia.
  - apply orb_false_iff in Hskip as [Hnv%bool_decide_eq_false Hp%negb_false_iff].
    assert ({[current]} ⊆ passable_cells st) as Hsub.
    { intros c ->%elem_of_singleton. by apply elem_of_passable_cells. }
    assert (({[current]} : gset Cell) ## vis) as Hdisj by set_solver.
    pose proof (size_unvisited_shrinks _ _ _ Hsub Hdisj) as Hsz.
    rewrite size_singleton in Hsz.
    destruct (IH (rest ++ neighbours current) ({[current]} ∪ vis) (area + 1))
      as (vf & Hvf & ->).
    + by apply bfs_inv_expand.
    + rewrite length_app. simpl in *. lia.
    + exists vf. split; [done|]. f_equal.
      rewrite (size_union {[current]} vis), size_singleton by done. lia.
Qed.

Lemma reachable_set_unique (st : GameState) (start : Cell) (vf vf' : gset Cell) :
  (∀ c, c ∈ vf ↔ reachable st start c) →
  (∀ c, c ∈ vf' ↔ reachable st start c) →
  vf = vf'.
Proof. intros H H'. apply set_eq. intros c. by rewrite H, H'. Qed.

Lemma bfs_fuel_enough st fuel :
  (bfs_fuel st ≤ fuel)%nat →
  (length [(0, 0)] + 4 * size (passable_cells st ∖ ∅) < fuel)%nat.
Proof.
  intros Hf. unfold bfs_fuel in Hf. simpl.
  pose proof (size_passable_cells st) as Hs.
  assert (size (passable_cells st ∖ ∅) ≤ size (passable_cells st))%nat as Hd.
  { apply subseteq_size. intros c. rewrite elem_of_difference. tauto. }
  lia.
Qed.

(** Any budget of at least [bfs_fuel] iterations lets the loop run to its
    end, and the count is the size of the set of reachable cells. *)
Lemma bfs_loop_from_start st start fuel :
  (bfs_fuel st ≤ fuel)%nat →
  ∃ vf : gset Cell,
    (∀ c, c ∈ vf ↔ reachable st start c) ∧
    bfs_loop st fuel [start] ∅ 0 = Ok (Z.of_nat (size vf)).
Proof.
  intros Hf.
  destruct (bfs_loop_correct st start fuel [start] ∅ 0) as (vf & Hvf & Heq).
  - apply bfs_inv_init.
  - by apply bfs_fuel_enough.
  - exists vf. split; [done|]. rewrite Heq, size_empty. f_equal. lia.
Qed.

Lemma calculateAccessibleArea_size b start :
  ∃ vf : gset Cell,
    (∀ c, c ∈ vf ↔ reachable (state b) start c) ∧
    calculateAccessibleArea b start = Ok (Z.of_nat (size vf)).
Proof. apply bfs_loop_from_start. done. Qed.

Lemma reachable_start_passable st start c :
  reachable st start c → passable st start = true.
Proof. induction 1; done. Qed.

Lemma reachable_move st start c d c' :
  reachable st start c →
  c' = vadd c (getDirectionVector d) →
  passable st c' = true →
  reachable st start c'.
Proof. intros Hr -> Hp. by constructor. Qed.

(** In a grid without obstacles every inside cell is reached from every
    inside cell: first along the row of the start, then along the column. *)
Section EmptyGrid.
Variable st : GameState.
Hypothesis all_empty : ∀ c, isInsideGrid st c = true → grid st c = 0.

Lemma empty_passable c : isInsideGrid st c = true → passable st c = true.
Proof.
  intros Hin. unfold passable. rewrite Hin, (all_empty c Hin). done.
Qed.

Lemma empty_walk_row sx sy (n : nat) : ∀ x,
  isInsideGrid st (sx, sy) = true →
  isInsideGrid st (x, sy) = true →
  Z.abs (x - sx) = Z.of_nat n →
  reachable st (sx, sy) (x, sy).
Proof.
  induction n as [|n IH]; intros x Hs Hx Hn.
  - assert (x = sx) as -> by lia. constructor. by apply empty_passable.
  - apply isInsideGrid_spec in Hx as Hx'. apply isInsideGrid_spec in Hs as Hs'.
    simpl in *. destruct (Z_lt_le_dec sx x).
    + apply (reachable_move _ _ (x - 1, sy) east).
      * apply IH; [done | | lia]. apply isInsideGrid_spec. simpl. lia.
      * unfold vadd. simpl. f_equal; lia.
      * by apply empty_passable.
    + apply (reachable_move _ _ (x + 1, sy) west).
      * apply IH; [done | | lia]. apply isInsideGrid_spec. simpl. lia.
      * unfold vadd. simpl. f_equal; lia.
      * by apply empty_passable.
Qed.

Lemma empty_walk_column start x sy (n : nat) : ∀ y,
  reachable st start (x, sy) →
  isInsideGrid st (x, y) = true →
  Z.abs (y - sy) = Z.of_nat n →
  reachable st start (x, y).
Proof.
  induction n as [|n IH]; intros y Hs Hy Hn.
  - assert (y = sy) as -> by lia. done.
  - apply isInsideGrid_spec in Hy as Hy'.
    pose proof Hs as Hs'.
    apply reachable_passable, passable_inside, isInsideGrid_spec in Hs'.
    simpl in *. destruct (Z_lt_le_dec sy y).
    + apply (reachable_move _ _ (x, y - 1) south).
      * apply IH; [done | | lia]. apply isInsideGrid_spec. simpl. lia.
      * unfold vadd. simpl. f_equal; lia.
      * by apply empty_passable.
    + apply (reachable_move _ _ (x, y + 1) north).
      * apply IH; [done | | lia]. apply isInsideGrid_spec. simpl. lia.
      * unfold vadd. simpl. f_equal; lia.
      * by apply empty_passable.
Qed.

Lemma empty_reachable start c :
  isInsideGrid st start = true →
  reachable st start c ↔ isInsideGrid st c = true.
Proof.
  intros Hs. split.
  - intros Hr. by apply passable_inside, (reachable_passable _ start).
  - intros Hc. destruct start as [sx sy], c as [x y].
    apply (empty_walk_column _ x sy (Z.to_nat (Z.abs (y - sy)))); [|done|lia].
    apply (empty_walk_row _ _ (Z.to_nat (Z.abs (x - sx)))); [done| |lia].
    apply isInsideGrid_spec in Hs, Hc. apply isInsideGrid_spec.
    simpl in *. lia.
Qed.
End EmptyGrid.

(** The three facts about the count of the flood fill, for a grid given as
    such. *)
Lemma area_counts_reachable b start :
  ∃ l : list Cell,
    NoDup l ∧ (∀ c, c ∈ l ↔ reachable (state b) start c) ∧
    calculateAccessibleArea b start = Ok (Z.of_nat (length l)).
Proof.
  destruct (calculateAccessibleArea_size b start) as (vf & Hvf & Heq).
  exists (elements vf). split_and!.
  - apply NoDup_elements.
  - intros c. rewrite elem_of_elements. apply Hvf.
  - done.
Qed.

Lemma area_blocked_start b start :
  passable (state b) start = false → calculateAccessibleArea b start = Ok 0.
Proof.
  intros Hp. destruct (calculateAccessibleArea_size b start) as (vf & Hvf & ->).
  assert (vf = ∅) as ->.
  { apply set_eq. intros c. rewrite Hvf. split; [|set_solver].
    intros Hr%reachable_start_passable. congruence. }
  by rewrite size_empty.
Qed.

Lemma area_empty_grid b start :
  (∀ c, isInsideGrid (state b) c = true → grid (state b) c = 0) →
  isInsideGrid (state b) start = true →
  calculateAccessibleArea b start
  = Ok (gridWidth (state b) * gridHeight (state b)).
Proof.
  intros Hempty Hs.
  destruct (calculateAccessibleArea_size b start) as (vf & Hvf & ->).
  assert (vf = list_to_set (all_cells (state b))) as ->.
  { apply set_eq. intros c.
    rewrite Hvf, elem_of_list_to_set, elem_of_all_cells.
    by apply empty_reachable. }
  rewrite size_list_to_set by apply NoDup_all_cells.
  rewrite length_all_cells. apply isInsideGrid_spec in Hs. f_equal. lia.
Qed.

(** ** Termination of the flood fill *)

(** Whatever the queue holds (cells outside the grid, occupied cells,
    repetitions), the loop ends: a skipped cell shortens the queue, an
    expanded one lengthens it by three but leaves one unvisited passable
    cell less. *)
Lemma bfs_loop_terminates st fuel : ∀ (q : list Cell) (vis : gset Cell) area,
  (length q + 4 * size (passable_cells st ∖ vis) < fuel)%nat →
  ∃ n, bfs_loop st fuel q vis area = Ok n.
Proof.
  induction fuel as [|fuel IH]; intros q vis area Hfuel; [lia|].
  destruct q as [|current rest]; simpl; [by eexists|].
  rewrite skip_cell_ok. simpl.
  destruct (bool_decide (current ∈ vis) || negb (passable st current)) eqn:Hskip.
  - apply IH. simpl in Hfuel. lia.
  - apply orb_false_iff in Hskip as [Hnv%bool_decide_eq_false Hp%negb_false_iff].
    assert ({[current]} ⊆ passable_cells st) as Hsub.
    { intros c ->%elem_of_singleton. by apply elem_of_passable_cells. }
    assert (({[current]} : gset Cell) ## vis) as Hdisj by set_solver.
    pose proof (size_unvisited_shrinks _ _ _ Hsub Hdisj) as Hsz.
    rewrite size_singleton in Hsz.
    apply IH. rewrite length_app. simpl in *. lia.
Qed.

Lemma bfs_expanded_fresh st fuel : ∀ (q : list Cell) (vis : gset Cell),
  NoDup (bfs_expanded st fuel q vis) ∧
  ∀ c, c ∈ bfs_expanded st fuel q vis → (c ∉ vis) ∧ passable st c = true.
Proof.
  induction fuel as [|fuel IH]; intros q vis; simpl.
  { split; [constructor | intros c Hc; by apply elem_of_nil in Hc]. }
  destruct q as [|current rest].
  { split; [constructor | intros c Hc; by apply elem_of_nil in Hc]. }
  rewrite skip_cell_ok.
  destruct (bool_decide (current ∈ vis) || negb (passable st current)) eqn:Hskip.
  - apply IH.
  - apply orb_false_iff in Hskip as [Hnv%bool_decide_eq_false Hp%negb_false_iff].
    destruct (IH (rest ++ neighbours current) ({[current]} ∪ vis)) as [Hnd Hin].
    split.
    + constructor; [|done]. intros Hc. apply Hin in Hc as [Hc _]. set_solver.
    + intros c [->|Hc]%elem_of_cons; [done|].
      apply Hin in Hc as [Hc ?]. split; [set_solver | done].
Qed.

Lemma bfs_loop_counts_expanded st fuel : ∀ (q : list Cell) (vis : gset Cell) area n,
  bfs_loop st fuel q vis area = Ok n →
  n = area + Z.of_nat (length (bfs_expanded st fuel q vis)).
Proof.
  induction fuel as [|fuel IH]; intros q vis area n; simpl; [done|].
  destruct q as [|current rest]; [intros [= <-]; simpl; lia|].
  rewrite skip_cell_ok. simpl.
  destruct (bool_decide (current ∈ vis) || negb (passable st current)).
  - apply IH.
  - intros Hn%IH. simpl. lia.
Qed.

(** ** The flood fill that filters at enqueue time *)

Lemma enqueue_fold st : ∀ (ns q : list Cell) (vis : gset Cell),
  ∃ new : list Cell,
    foldl (enqueue_if_new st) (q, vis) ns = (q ++ new, list_to_set new ∪ vis) ∧
    NoDup new ∧
    ∀ n, n ∈ new ↔ n ∈ ns ∧ passable st n = true ∧ n ∉ vis.
Proof.
  induction ns as [|n0 ns IH]; intros q vis; simpl.
  { exists []. rewrite app_nil_r. split_and!.
    - f_equal. set_solver.
    - constructor.
    - intros n. rewrite !elem_of_nil. tauto. }
  unfold enqueue_if_new at 2. simpl.
  destruct (passable st n0 && negb (bool_decide (n0 ∈ vis))) eqn:Hacc.
  - apply andb_true_iff in Hacc as [Hp Hnv%negb_true_iff%bool_decide_eq_false].
    destruct (IH (q ++ [n0]) ({[n0]} ∪ vis)) as (new & -> & Hnd & Hin).
    exists (n0 :: new). split_and!.
    + f_equal; [by rewrite <- app_assoc | set_solver].
    + constructor; [|done]. rewrite Hin. set_solver.
    + intros n. rewrite !elem_of_cons, Hin.
      destruct (decide (n = n0)) as [->|Hne]; [tauto|]. set_solver.
  - destruct (IH q vis) as (new & -> & Hnd & Hin).
    exists new. split_and!; [done..|].
    intros n. rewrite elem_of_cons, Hin. split; [tauto|].
    intros ([->|?] & Hp & Hnv); [|tauto].
    rewrite Hp in Hacc. simpl in Hacc.
    apply negb_false_iff, bool_decide_eq_true in Hacc. done.
Qed.

Lemma enq_inv_init st start :
  passable st start = true → enq_inv st start [start] {[start]}.
Proof.
  intros Hp. split_and!.
  - intros c ->%elem_of_singleton. by constructor.
  - intros c ->%list_elem_of_singleton. set_solver.
  - set_solver.
  - intros c d ->%elem_of_singleton. left. set_solver.
Qed.

Lemma enq_inv_step st start current rest vis new :
  enq_inv st start (current :: rest) vis →
  (∀ n, n ∈ new ↔ n ∈ neighbours current ∧ passable st n = true ∧ n ∉ vis) →
  enq_inv st start (rest ++ new) (list_to_set new ∪ vis).
Proof.
  intros (Hv & Hq & Hs & Hc) Hnew.
  assert (reachable st start current) as Hr by (apply Hv, Hq; by left).
  split_and!.
  - intros c [Hin%elem_of_list_to_set|?]%elem_of_union; [|auto].
    apply Hnew in Hin as ([d ->]%elem_of_neighbours & Hp & _). by constructor.
  - intros c [Hin|Hin]%elem_of_app.
    + apply elem_of_union. right. apply Hq. by right.
    + apply elem_of_union. left. by apply elem_of_list_to_set.
  - set_solver.
  - intros c d [Hin%elem_of_list_to_set|Hin]%elem_of_union.
    + left. apply elem_of_app. by right.
    + destruct (Hc c d Hin) as [[->|?]%elem_of_cons|Hcl].
      * right. intros Hp.
        destruct (decide (vadd current (getDirectionVector d) ∈ vis)).
        { apply elem_of_union. by right. }
        apply elem_of_union. left. apply elem_of_list_to_set, Hnew.
        split_and!; [|done..]. apply elem_of_neighbours. by exists d.
      * left. apply elem_of_app. by left.
      * right. intros Hp. apply elem_of_union. right. by apply Hcl.
Qed.

Lemma enq_inv_exit st start vis c :
  enq_inv st start [] vis → c ∈ vis ↔ reachable st start c.
Proof.
  intros (Hv & _ & Hs & Hc). split; [apply Hv|].
  induction 1 as [Hp|c d Hr IH Hp]; [done|].
  destruct (Hc c d IH) as [Hin|Hcl]; [by apply elem_of_nil in Hin | by apply Hcl].
Qed.

Lemma bfs_enqueue_filter_loop_cons st fuel current rest vis area :
  bfs_enqueue_filter_loop st (S fuel) (current :: rest) vis area
  = bfs_enqueue_filter_loop st fuel
      (foldl (enqueue_if_new st) (rest, vis) (neighbours current)).1
      (foldl (enqueue_if_new st) (rest, vis) (neighbours current)).2
      (area + 1).
Proof. reflexivity. Qed.

Lemma bfs_enqueue_filter_loop_correct st start fuel : ∀ q vis area,
  enq_inv st start q vis →
  (length q + size (passable_cells st ∖ vis) < fuel)%nat →
  ∃ vf : gset Cell,
    (∀ c, c ∈ vf ↔ reachable st start c) ∧
    bfs_enqueue_filter_loop st fuel q vis area
    = Ok (area + Z.of_nat (size vf) - Z.of_nat (size vis) + Z.of_nat (length q)).
Proof.
  induction fuel as [|fuel IH]; intros q vis area Hinv Hfuel; [lia|].
  destruct q as [|current rest].
  { exists vis. split; [intros c; by apply enq_inv_exit|]. simpl. f_equal. lia. }
  rewrite bfs_enqueue_filter_loop_cons.
  destruct (enqueue_fold st (neighbours current) rest vis)
    as (new & -> & Hnd & Hnew). cbn [fst snd].
  assert (list_to_set new ⊆ passable_cells st) as Hsub.
  { intros c Hc%elem_of_list_to_set%Hnew. apply elem_of_passable_cells. tauto. }
  assert ((list_to_set new : gset Cell) ## vis) as Hdisj.
  { intros c Hc%elem_of_list_to_set%Hnew. tauto. }
  pose proof (size_unvisited_shrinks _ _ _ Hsub Hdisj) as Hsz.
  rewrite size_list_to_set in Hsz by done.
  destruct (IH (rest ++ new) (list_to_set new ∪ vis) (area + 1))
    as (vf & Hvf & ->).
  - by apply (enq_inv_step _ _ current).
  - rewrite length_app. simpl in Hfuel. lia.
  - exists vf. split; [done|]. f_equal.
    rewrite (size_union (list_to_set new) vis) by done.
    rewrite size_list_to_set, length_app by done. cbn [length]. lia.
Qed.

Lemma reachableArea_enqueue_filter_size st start :
  ∃ vf : gset Cell,
    (∀ c, c ∈ vf ↔ reachable st start c) ∧
    reachableArea_enqueue_filter st start = Ok (Z.of_nat (size vf)).
Proof.
  unfold reachableArea_enqueue_filter.
  destruct (passable st start) eqn:Hp.
  - destruct (bfs_enqueue_filter_loop_correct st start (bfs_fuel st)
                [start] {[start]} 0) as (vf & Hvf & ->).
    + by apply enq_inv_init.
    + pose proof (bfs_fuel_enough st (bfs_fuel st) (le_n _)) as Hf.
      assert (size (passable_cells st ∖ {[start]})
              ≤ size (passable_cells st ∖ ∅))%nat.
      { apply subseteq_size. set_solver. }
      simpl in *. lia.
    + exists vf. split; [done|]. rewrite size_singleton. simpl. f_equal. lia.
  - exists ∅. split; [|done]. intros c. split; [set_solver|].
    intros Hr%reachable_start_passable. congruence.
Qed.

(** ** Sorting *)

Lemma by_score_desc_swo : StrictWeakOrder by_score_desc.
Proof.
  unfold by_score_desc. split.
  - intros x. apply Z.ltb_irrefl.
  - intros x y z. rewrite !Z.ltb_lt. lia.
  - intros x y z. rewrite !Z.ltb_lt. lia.
Qed.

Section Insertion.
Context {A : Type} (comp : A → A → bool).

Lemma insert_stable_perm x l : insert_stable comp x l ≡ₚ x :: l.
Proof.
  induction l as [|y l IH]; simpl; [done|].
  destruct (comp y x); [|done]. rewrite IH. apply Permutation_swap.
Qed.

Lemma sort_stable_perm l : sort_stable comp l ≡ₚ l.
Proof.
  induction l as [|x l IH]; simpl; [done|].
  by rewrite insert_stable_perm, IH.
Qed.

Lemma insert_past_ties_perm x l : insert_past_ties comp x l ≡ₚ x :: l.
Proof.
  induction l as [|y l IH]; simpl; [done|].
  destruct (comp x y); [done|]. rewrite IH. apply Permutation_swap.
Qed.

Lemma sort_reversing_ties_perm l : sort_reversing_ties comp l ≡ₚ l.
Proof.
  induction l as [|x l IH]; simpl; [done|].
  by rewrite insert_past_ties_perm, IH.
Qed.

Hypothesis comp_swo : StrictWeakOrder comp.

Lemma comp_asym x y : comp x y = true → comp y x = false.
Proof.
  intros Hxy. destruct (comp y x) eqn:Hyx; [|done].
  pose proof (swo_trans _ comp_swo _ _ _ Hxy Hyx) as Hxx.
  by rewrite (swo_irrefl _ comp_swo) in Hxx.
Qed.

Lemma insert_stable_sorted x l :
  StronglySorted (λ a c, comp c a = false) l →
  StronglySorted (λ a c, comp c a = false) (insert_stable comp x l).
Proof.
  induction 1 as [|y l Hs IH Hy]; simpl; [by repeat constructor|].
  destruct (comp y x) eqn:Hyx.
  - constructor; [done|]. rewrite insert_stable_perm.
    constructor; [by apply comp_asym | done].
  - constructor; [by constructor|]. constructor; [done|].
    eapply Forall_impl; [exact Hy|]. intros z Hzy. simpl in Hzy.
    destruct (comp z x) eqn:Hzx; [|done].
    destruct (swo_cotrans _ comp_swo z y x Hzx); congruence.
Qed.

Lemma sort_stable_sorted l :
  StronglySorted (λ a c, comp c a = false) (sort_stable comp l).
Proof.
  induction l as [|x l IH]; simpl; [constructor|].
  by apply insert_stable_sorted.
Qed.

Lemma insert_past_ties_sorted x l :
  StronglySorted (λ a c, comp c a = false) l →
  StronglySorted (λ a c, comp c a = false) (insert_past_ties comp x l).
Proof.
  induction 1 as [|y l Hs IH Hy]; simpl; [by repeat constructor|].
  destruct (comp x y) eqn:Hxy.
  - constructor; [by constructor|]. constructor; [by apply comp_asym|].
    eapply Forall_impl; [exact Hy|]. intros z Hzy. simpl in Hzy.
    destruct (comp z x) eqn:Hzx; [|done].
    pose proof (swo_trans _ comp_swo _ _ _ Hzx Hxy). congruence.
  - constructor; [done|]. rewrite insert_past_ties_perm. by constructor.
Qed.

Lemma sort_reversing_ties_sorted l :
  StronglySorted (λ a c, comp c a = false) (sort_reversing_ties comp l).
Proof.
  induction l as [|x l IH]; simpl; [constructor|].
  by apply insert_past_ties_sorted.
Qed.
End Insertion.

(** *** The library's insertion sort *)

Lemma flip_swo {A} (comp : A → A → bool) :
  StrictWeakOrder comp → StrictWeakOrder (λ a c, comp c a).
Proof.
  intros [Hirr Htrans Hco]. split.
  - done.
  - intros x y z Hxy Hyz. by apply (Htrans z y x).
  - intros x y z Hxz. destruct (Hco z y x Hxz); auto.
Qed.

Lemma unguarded_linear_insert_alt {A} (comp : A → A → bool) val before :
  unguarded_linear_insert comp val before
  = insert_stable (λ a c, comp c a) val before.
Proof.
  induction before as [|next rest IH]; simpl; [done|].
  by rewrite IH.
Qed.

Lemma StronglySorted_reverse {A} (R : relation A) (l : list A) :
  StronglySorted R l → StronglySorted (λ a c, R c a) (reverse l).
Proof.
  induction 1 as [|x l Hs IH Hx]; [constructor|].
  rewrite reverse_cons. apply StronglySorted_app. split_and!.
  - intros x1 x2 Hx1 ->%list_elem_of_singleton.
    rewrite elem_of_reverse in Hx1.
    rewrite Forall_forall in Hx. by apply Hx.
  - done.
  - repeat constructor.
Qed.

Lemma insertion_sort_step_perm {A} (comp : A → A → bool) sorted val :
  insertion_sort_step comp sorted val ≡ₚ val :: sorted.
Proof.
  unfold insertion_sort_step. destruct sorted as [|first rest]; [done|].
  destruct (comp val first); [done|].
  rewrite reverse_Permutation, unguarded_linear_insert_alt.
  by rewrite insert_stable_perm, reverse_Permutation.
Qed.

Lemma insertion_sort_fold_perm {A} (comp : A → A → bool) (l : list A) :
  ∀ acc, foldl (insertion_sort_step comp) acc l ≡ₚ acc ++ l.
Proof.
  induction l as [|x l IH]; intros acc; simpl; [by rewrite app_nil_r|].
  rewrite IH, insertion_sort_step_perm. simpl. apply Permutation_middle.
Qed.

Lemma insertion_sort_perm {A} (comp : A → A → bool) (l : list A) :
  insertion_sort comp l ≡ₚ l.
Proof. apply (insertion_sort_fold_perm comp l []). Qed.

Lemma insertion_sort_step_sorted {A} (comp : A → A → bool) sorted val :
  StrictWeakOrder comp →
  StronglySorted (λ a c, comp c a = false) sorted →
  StronglySorted (λ a c, comp c a = false)
    (insertion_sort_step comp sorted val).
Proof.
  intros Hswo Hsorted. unfold insertion_sort_step.
  destruct sorted as [|first rest]; [by repeat constructor|].
  destruct (comp val first) eqn:Hfront.
  - constructor; [done|].
    apply StronglySorted_inv in Hsorted as [_ Hrest].
    constructor; [by apply comp_asym|].
    eapply Forall_impl; [exact Hrest|]. intros v Hv. simpl in Hv.
    destruct (comp v val) eqn:Hvv; [|done].
    pose proof (swo_trans _ Hswo _ _ _ Hvv Hfront). congruence.
  - rewrite unguarded_linear_insert_alt.
    apply (StronglySorted_reverse (λ a c, comp a c = false)).
    apply (insert_stable_sorted (λ a c, comp c a)); [by apply flip_swo|].
    by apply (StronglySorted_reverse (λ a c, comp c a = false)).
Qed.

Lemma insertion_sort_sorted {A} (comp : A → A → bool) (l : list A) :
  StrictWeakOrder comp →
  StronglySorted (λ a c, comp c a = false) (insertion_sort comp l).
Proof.
  intros Hswo. unfold insertion_sort.
  assert (∀ acc, StronglySorted (λ a c, comp c a = false) acc →
            StronglySorted (λ a c, comp c a = false)
              (foldl (insertion_sort_step comp) acc l)) as Hfold.
  { induction l as [|x l IH]; intros acc Hacc; simpl; [done|].
    by apply IH, insertion_sort_step_sorted. }
  apply Hfold. constructor.
Qed.

(** [std::sort] as the library runs it on ranges of at most 16 elements. *)
Definition library_std_sort : StdSort :=
  {| std_sort := @insertion_sort;
     std_sort_perm := @insertion_sort_perm;
     std_sort_sorted := λ A comp l Hc, insertion_sort_sorted comp l Hc |}.

Lemma unguarded_linear_insert_keeps_last {A} (comp : A → A → bool) val
    (l : list A) (h : A) :
  comp val h = false →
  ∃ l', unguarded_linear_insert comp val (l ++ [h]) = l' ++ [h].
Proof.
  intros Hh. induction l as [|next rest [l' IH]]; simpl.
  - rewrite Hh. by exists [val].
  - destruct (comp val next).
    + rewrite IH. by exists (next :: l').
    + by exists (val :: next :: rest).
Qed.

(** The front of the range during the insertion sort by descending score:
    it is the earliest of the best elements inserted so far. *)
Lemma insertion_sort_step_front (p sorted : list (Direction * Z))
    (x : Direction * Z) :
  (∃ pre d s post t,
     p = pre ++ (d, s) :: post ∧ sorted = (d, s) :: t ∧
     Forall (λ m, m.2 < s) pre ∧ Forall (λ m, m.2 ≤ s) post) →
  ∃ pre d s post t,
    p ++ [x] = pre ++ (d, s) :: post ∧
    insertion_sort_step by_score_desc sorted x = (d, s) :: t ∧
    Forall (λ m, m.2 < s) pre ∧ Forall (λ m, m.2 ≤ s) post.
Proof.
  intros (pre & d & s & post & t & -> & -> & Hpre & Hpost).
  unfold insertion_sort_step.
  destruct (by_score_desc x (d, s)) eqn:Hfront.
  - unfold by_score_desc in Hfront. simpl in Hfront. apply Z.ltb_lt in Hfront.
    exists (pre ++ (d, s) :: post), x.1, x.2, [], ((d, s) :: t).
    destruct x as [dx sx]. simpl in *. split_and!; [done..| |constructor].
    apply Forall_app. split.
    + eapply Forall_impl; [exact Hpre|]. simpl. lia.
    + constructor; [simpl; lia|].
      eapply Forall_impl; [exact Hpost|]. simpl. lia.
  - rewrite reverse_cons.
    destruct (unguarded_linear_insert_keeps_last by_score_desc x
                (reverse t) (d, s) Hfront) as [l' ->].
    rewrite reverse_snoc.
    exists pre, d, s, (post ++ [x]), (reverse l').
    split_and!; [by rewrite <- app_assoc | done | done |].
    apply Forall_app. split; [done|]. constructor; [|constructor].
    unfold by_score_desc in Hfront. simpl in Hfront.
    by apply Z.ltb_ge in Hfront.
Qed.

Lemma insertion_sort_front (moves : list (Direction * Z)) :
  moves ≠ [] →
  ∃ pre d s post t,
    moves = pre ++ (d, s) :: post ∧
    insertion_sort by_score_desc moves = (d, s) :: t ∧
    Forall (λ m, m.2 < s) pre ∧ Forall (λ m, m.2 ≤ s) post.
Proof.
  destruct moves as [|[d0 s0] moves]; [done|]. intros _.
  unfold insertion_sort. simpl.
  assert (∀ l p sorted,
            (∃ pre d s post t,
               p = pre ++ (d, s) :: post ∧ sorted = (d, s) :: t ∧
               Forall (λ m, m.2 < s) pre ∧ Forall (λ m, m.2 ≤ s) post) →
            ∃ pre d s post t,
              p ++ l = pre ++ (d, s) :: post ∧
              foldl (insertion_sort_step by_score_desc) sorted l = (d, s) :: t ∧
              Forall (λ m, m.2 < s) pre ∧ Forall (λ m, m.2 ≤ s) post) as Hfold.
  { induction l as [|x l IH]; intros p sorted Hinv; simpl.
    - by rewrite app_nil_r.
    - replace (p ++ x :: l) with ((p ++ [x]) ++ l) by by rewrite <- app_assoc.
      by apply IH, insertion_sort_step_front. }
  apply (Hfold moves [(d0, s0)] [(d0, s0)]).
  exists [], d0, s0, [], []. by split_and!.
Qed.

(** A stable implementation of the contract. *)
Definition stable_std_sort : StdSort :=
  {| std_sort := @sort_stable;
     std_sort_perm := @sort_stable_perm;
     std_sort_sorted := λ A comp l Hc, sort_stable_sorted comp Hc l |}.

(** An implementation of the contract that reverses equivalent elements. *)
Definition reversing_std_sort : StdSort :=
  {| std_sort := @sort_reversing_ties;
     std_sort_perm := @sort_reversing_ties_perm;
     std_sort_sorted := λ A comp l Hc, sort_reversing_ties_sorted comp Hc l |}.

(** ** Move selection *)

Lemma findBestMove_nil `{StdSort} : findBestMove [] = north.
Proof. reflexivity. Qed.

Lemma findBestMove_best `{StdSort} (moves : list (Direction * Z)) :
  moves ≠ [] →
  ∃ s, (findBestMove moves, s) ∈ moves ∧ ∀ m, m ∈ moves → m.2 ≤ s.
Proof.
  intros Hne. destruct moves as [|m0 moves]; [done|].
  unfold findBestMove.
  pose proof (std_sort_perm _ by_score_desc (m0 :: moves)) as Hperm.
  pose proof (std_sort_sorted _ by_score_desc (m0 :: moves) by_score_desc_swo)
    as Hsorted.
  destruct (std_sort by_score_desc (m0 :: moves)) as [|[d s] t].
  { by apply Permutation_nil_cons in Hperm. }
  simpl. exists s. split.
  - rewrite <- Hperm. by left.
  - intros m Hm. rewrite <- Hperm in Hm.
    apply StronglySorted_inv in Hsorted as [_ Ht].
    apply elem_of_cons in Hm as [->|Hm]; [simpl; lia|].
    rewrite Forall_forall in Ht. specialize (Ht m Hm).
    unfold by_score_desc in Ht. simpl in Ht. apply Z.ltb_ge in Ht. done.
Qed.

Lemma sort_stable_head (moves : list (Direction * Z)) :
  moves ≠ [] →
  ∃ pre d s post,
    moves = pre ++ (d, s) :: post ∧
    head (sort_stable by_score_desc moves) = Some (d, s) ∧
    Forall (λ m, m.2 < s) pre ∧
    Forall (λ m, m.2 ≤ s) post.
Proof.
  induction moves as [|[d0 s0] moves IH]; [done|]. intros _.
  destruct moves as [|m1 moves].
  { exists [], d0, s0, []. by repeat split. }
  destruct IH as (pre & d & s & post & Heq & Hhead & Hpre & Hpost); [done|].
  rewrite Heq. rewrite Heq in Hhead.
  change (sort_stable by_score_desc ((d0, s0) :: pre ++ (d, s) :: post))
    with (insert_stable by_score_desc (d0, s0)
            (sort_stable by_score_desc (pre ++ (d, s) :: post))).
  destruct (sort_stable by_score_desc (pre ++ (d, s) :: post))
    as [|m t]; [done|]. simpl in Hhead. injection Hhead as ->.
  simpl. unfold by_score_desc at 1. simpl.
  destruct (s0 <? s) eqn:Hlt.
  - apply Z.ltb_lt in Hlt.
    exists ((d0, s0) :: pre), d, s, post. split_and!; [done..| |done].
    by constructor.
  - apply Z.ltb_ge in Hlt.
    exists [], d0, s0, (pre ++ (d, s) :: post). split_and!; [done..|].
    apply Forall_app. split.
    + eapply Forall_impl; [exact Hpre|]. simpl. lia.
    + constructor; [simpl; lia|].
      eapply Forall_impl; [exact Hpost|]. simpl. lia.
Qed.

Lemma findBestMove_stable_earliest (moves : list (Direction * Z)) :
  moves ≠ [] → earliest_best moves (@findBestMove stable_std_sort moves).
Proof.
  intros Hne.
  destruct (sort_stable_head moves Hne) as (pre & d & s & post & Heq & Hh & ? & ?).
  exists pre, s, post. split_and!; [|done..].
  destruct moves as [|m0 moves]; [done|].
  unfold findBestMove, std_sort, stable_std_sort. rewrite Hh. done.
Qed.

(** ** Loops whose body never fails *)

Lemma ofoldl_ok {A B} (f : A → B → outcome A) (g : A → B → A) (l : list B) :
  (∀ a x, f a x = Ok (g a x)) → ∀ a, ofoldl f a l = Ok (foldl g a l).
Proof.
  intros Hf. induction l as [|x l IH]; intros a; simpl; [done|].
  rewrite Hf. simpl. apply IH.
Qed.

Lemma ofoldl_ext {A B} (f g : A → B → outcome A) (l : list B) :
  (∀ a x, f a x = g a x) → ∀ a, ofoldl f a l = ofoldl g a l.
Proof.
  intros Hf. induction l as [|x l IH]; intros a; simpl; [done|].
  rewrite Hf. destruct (g a x); simpl; auto.
Qed.

(** ** The engine's loops never fail *)

Lemma calculateAccessibleArea_area_of b c :
  calculateAccessibleArea b c = Ok (area_of b c).
Proof.
  unfold area_of.
  destruct (calculateAccessibleArea_size b c) as (vf & _ & ->). done.
Qed.

Lemma area_of_passable_pos b c :
  passable (state b) c = true → 1 ≤ area_of b c.
Proof.
  intros Hp. unfold area_of.
  destruct (calculateAccessibleArea_size b c) as (vf & Hvf & ->).
  assert (c ∈ vf) as Hc by (apply Hvf; by constructor).
  assert (size vf ≠ 0)%nat; [|lia].
  intros Hz%size_empty_inv. set_solver.
Qed.

(** The count never exceeds the number of cells of the grid, so it fits the
    [int] it is kept in whenever the grid size does. *)
Lemma area_of_bound b c :
  0 ≤ area_of b c
  ≤ Z.of_nat (Z.to_nat (gridWidth (state b)) * Z.to_nat (gridHeight (state b))).
Proof.
  unfold area_of.
  destruct (calculateAccessibleArea_size b c) as (vf & Hvf & ->).
  split; [lia|]. apply inj_le.
  etrans; [|apply size_passable_cells]. apply subseteq_size.
  intros x Hx%Hvf%reachable_passable. by apply elem_of_passable_cells.
Qed.

Lemma predict_step_ok b h acc d :
  predict_step b h acc d = Ok (predict_pure b h acc d).
Proof.
  unfold predict_step, predict_pure. destruct acc as [best maxArea].
  rewrite inside_and_empty_ok. simpl.
  destruct (passable (state b) (vadd h (getDirectionVector d))); [|done].
  rewrite calculateAccessibleArea_area_of. simpl.
  by destruct (maxArea <? _).
Qed.

Lemma predictOpponentMove_ok b h :
  predictOpponentMove b h
  = Ok (foldl (predict_pure b h) (h, 0) all_directions).1.
Proof.
  unfold predictOpponentMove.
  rewrite (ofoldl_ok _ (predict_pure b h)) by apply predict_step_ok. done.
Qed.

Lemma safe_step_ok b moves d :
  safe_step b moves d = Ok (moves ++ option_list (safe_candidate b d)).
Proof.
  unfold safe_step, safe_candidate, new_pos. rewrite is_valid_move_ok. simpl.
  destruct (passable _ _); simpl; [|by rewrite app_nil_r].
  by rewrite calculateAccessibleArea_area_of.
Qed.

Lemma aggressive_step_ok b target moves d :
  aggressive_step b target moves d
  = Ok (moves ++ option_list (aggressive_candidate b target d)).
Proof.
  unfold aggressive_step, aggressive_candidate, aggressive_score, new_pos.
  rewrite is_valid_move_ok. simpl.
  destruct (passable _ _); simpl; [|by rewrite app_nil_r].
  by rewrite calculateAccessibleArea_area_of.
Qed.

Lemma foldl_candidates {A B} (f : B → option A) (ds : list B) : ∀ acc,
  foldl (λ moves d, moves ++ option_list (f d)) acc ds = acc ++ omap f ds.
Proof.
  induction ds as [|d ds IH]; intros acc; simpl; [by rewrite app_nil_r|].
  rewrite IH, <- app_assoc. by destruct (f d).
Qed.

Lemma aggressive_moves_ok b target :
  aggressive_moves b target
  = Ok (omap (aggressive_candidate b target) all_directions).
Proof.
  unfold aggressive_moves.
  rewrite (ofoldl_ok _ (λ moves d,
             moves ++ option_list (aggressive_candidate b target d)))
    by apply aggressive_step_ok.
  by rewrite foldl_candidates.
Qed.

Lemma findSafeDirection_ok `{StdSort} b :
  findSafeDirection b
  = Ok (findBestMove (omap (safe_candidate b) all_directions)).
Proof.
  unfold findSafeDirection.
  rewrite (ofoldl_ok _ (λ moves d, moves ++ option_list (safe_candidate b d)))
    by apply safe_step_ok.
  by rewrite foldl_candidates.
Qed.

Lemma decideAggressiveMove_ok `{StdSort} b target predictedHead :
  decideAggressiveMove b target predictedHead
  = Ok (findBestMove (omap (aggressive_candidate b target) all_directions)).
Proof. unfold decideAggressiveMove. by rewrite aggressive_moves_ok. Qed.

Lemma decideMove_ok `{StdSort} b : ∃ d, decideMove b = Ok d.
Proof.
  unfold decideMove. destruct (findNearestOpponentHead b) as [h o].
  case_bool_decide.
  - rewrite findSafeDirection_ok. by eexists.
  - rewrite predictOpponentMove_ok. simpl.
    rewrite decideAggressiveMove_ok. by eexists.
Qed.

(** ** Opponent prediction *)

(** The running best of the prediction loop over any list of directions:
    either nothing beat the initial bound, or the result is the first
    direction of the list whose passable neighbour has the largest area. *)
Lemma predict_fold b h (ds : list Direction) : ∀ (b0 : Cell) (m0 : Z),
  (foldl (predict_pure b h) (b0, m0) ds = (b0, m0) ∧
   ∀ d, d ∈ ds → passable (state b) (vadd h (getDirectionVector d)) = true →
        area_of b (vadd h (getDirectionVector d)) ≤ m0)
  ∨
  (∃ pre d post,
     ds = pre ++ d :: post ∧
     foldl (predict_pure b h) (b0, m0) ds
     = (vadd h (getDirectionVector d), area_of b (vadd h (getDirectionVector d))) ∧
     passable (state b) (vadd h (getDirectionVector d)) = true ∧
     m0 < area_of b (vadd h (getDirectionVector d)) ∧
     (∀ d', d' ∈ pre →
        passable (state b) (vadd h (getDirectionVector d')) = true →
        area_of b (vadd h (getDirectionVector d'))
        < area_of b (vadd h (getDirectionVector d))) ∧
     (∀ d', d' ∈ post →
        passable (state b) (vadd h (getDirectionVector d')) = true →
        area_of b (vadd h (getDirectionVector d'))
        ≤ area_of b (vadd h (getDirectionVector d)))).
Proof.
  induction ds as [|d0 ds IH]; intros b0 m0.
  { left. split; [done|]. intros d Hd. by apply elem_of_nil in Hd. }
  simpl. unfold predict_pure at 2 4. simpl.
  destruct (passable (state b) (vadd h (getDirectionVector d0))
            && (m0 <? area_of b (vadd h (getDirectionVector d0)))) eqn:Hupd.
  - apply andb_true_iff in Hupd as [Hp Hlt%Z.ltb_lt].
    right.
    destruct (IH (vadd h (getDirectionVector d0))
                 (area_of b (vadd h (getDirectionVector d0))))
      as [[Heq Hle]|(pre & d & post & -> & Heq & Hpd & Hm & Hpre & Hpost)].
    + exists [], d0, ds. split_and!; try done.
      intros d' Hd'. by apply elem_of_nil in Hd'.
    + exists (d0 :: pre), d, post. split_and!; try done; [lia|].
      intros d' [->|Hd']%elem_of_cons; [done | by apply Hpre].
  - assert (passable (state b) (vadd h (getDirectionVector d0)) = true →
            area_of b (vadd h (getDirectionVector d0)) ≤ m0) as Hd0.
    { intros Hp. rewrite Hp in Hupd. simpl in Hupd. by apply Z.ltb_ge in Hupd. }
    destruct (IH b0 m0)
      as [[Heq Hle]|(pre & d & post & -> & Heq & Hpd & Hm & Hpre & Hpost)].
    + left. split; [done|].
      intros d [->|Hd]%elem_of_cons; [done | by apply Hle].
    + right. exists (d0 :: pre), d, post. split_and!; try done.
      intros d' [->|Hd']%elem_of_cons Hp; [|by apply Hpre].
      specialize (Hd0 Hp). lia.
Qed.

Lemma earlier_in_prefix pre d post d' :
  all_directions = pre ++ d :: post → earlier d' d → d' ∈ pre.
Proof.
  unfold all_directions, earlier.
  destruct pre as [|? [|? [|? [|? [|? ?]]]]]; simpl; intros [= <-]; subst;
    destruct d'; simpl; intros ?; try lia; set_solver.
Qed.

Lemma elem_of_all_directions d : d ∈ all_directions.
Proof. unfold all_directions. destruct d; set_solver. Qed.

(** * The properties of the specification *)

(** ** Selection of the best candidate *)

(** C1: for every non-empty candidate list of at most 16 entries (the
    client builds at most four), [findBestMove] returns the direction of
    the candidate with the maximum score, and of the earliest generated one
    when several candidates have that score: the insertion sort [std::sort]
    runs on such a range never moves an element in front of an earlier one
    with the same score. *)
Theorem findBestMove_earliest_best (moves : list (Direction * Z)) :
  moves ≠ [] →
  (length moves ≤ 16)%nat →
  earliest_best moves (@findBestMove library_std_sort moves).
Proof.
  intros Hne _.
  destruct (insertion_sort_front moves Hne)
    as (pre & d & s & post & t & Heq & Hsort & Hpre & Hpost).
  exists pre, s, post. split_and!; [|done..].
  destruct moves as [|m0 moves]; [done|].
  unfold findBestMove, std_sort, library_std_sort. by rewrite Hsort.
Qed.

Lemma findBestMove_earliest_best_witness :
  [(north, 5); (east, 5); (south, 3)] ≠ [] ∧
  (length [(north, 5); (east, 5); (south, 3)] ≤ 16)%nat ∧
  earliest_best [(north, 5); (east, 5); (south, 3)]
    (@findBestMove library_std_sort [(north, 5); (east, 5); (south, 3)]).
Proof.
  assert ([(north, 5); (east, 5); (south, 3)] ≠ []) as Hne by discriminate.
  assert (length [(north, 5); (east, 5); (south, 3)] ≤ 16)%nat as Hlen
    by (simpl; lia).
  split; [exact Hne|]. split; [exact Hlen|].
  exact (findBestMove_earliest_best _ Hne Hlen).
Defined.

Example findBestMove_tie_north :
  @findBestMove library_std_sort [(north, 5); (east, 5)] = north.
Proof. reflexivity. Qed.

(** The candidate lists of the client are short enough. *)
Lemma candidates_at_most_four {A} (f : Direction → option A) :
  (length (omap f all_directions) ≤ 4)%nat.
Proof.
  unfold all_directions. simpl.
  destruct (f north), (f east), (f south), (f west); simpl; lia.
Qed.

Lemma findSafeDirection_earliest_best b :
  omap (safe_candidate b) all_directions ≠ [] →
  ∃ d, @findSafeDirection library_std_sort b = Ok d ∧
       earliest_best (omap (safe_candidate b) all_directions) d.
Proof.
  intros Hne. rewrite findSafeDirection_ok. eexists. split; [reflexivity|].
  destruct (insertion_sort_front _ Hne)
    as (pre & d & s & post & t & Heq & Hsort & Hpre & Hpost).
  exists pre, s, post. split_and!; [|done..].
  destruct (omap (safe_candidate b) all_directions) as [|m0 moves]; [done|].
  unfold findBestMove, std_sort, library_std_sort. by rewrite Hsort.
Qed.

(** The tie-break belongs to the sorting algorithm and not to the contract
    of [std::sort]: a procedure that meets the contract but walks past
    equivalent elements leaves East in front of North. *)
Lemma findBestMove_tie_not_earliest :
  @findBestMove reversing_std_sort [(north, 5); (east, 5)] = east ∧
  ¬ earliest_best [(north, 5); (east, 5)]
      (@findBestMove reversing_std_sort [(north, 5); (east, 5)]).
Proof.
  split; [reflexivity|].
  change (@findBestMove reversing_std_sort [(north, 5); (east, 5)]) with east.
  intros (pre & s & post & Heq & Hpre & Hpost).
  destruct pre as [|m0 [|m1 pre]]; simplify_eq/=.
  - apply Forall_cons in Hpre as [Hlt _]. simpl in Hlt. lia.
  - by destruct pre.
Qed.

(** C9: on an empty candidate list [findBestMove] returns North, and a
    player none of whose four moves is valid gets North from every decision
    procedure, as a value and not as a failure. *)
Theorem enclosed_player_moves_north (S : StdSort) :
  findBestMove [] = north ∧
  ∀ b : BotClient,
    (∀ d, is_valid_move b d = Ok false) →
    findSafeDirection b = Ok north ∧
    (∀ target predictedHead,
       decideAggressiveMove b target predictedHead = Ok north) ∧
    decideMove b = Ok north ∧
    decideMove_conservative b = Ok north.
Proof.
  split; [reflexivity|]. intros b Hvalid.
  assert (∀ d, passable (state b) (new_pos b d) = false) as Hp.
  { intros d. specialize (Hvalid d). rewrite is_valid_move_ok in Hvalid.
    by injection Hvalid. }
  assert (omap (safe_candidate b) all_directions = []) as Hsafe.
  { unfold all_directions, safe_candidate. simpl. by rewrite !Hp. }
  assert (∀ t, omap (aggressive_candidate b t) all_directions = []) as Hagg.
  { intros t. unfold all_directions, aggressive_candidate. simpl.
    by rewrite !Hp. }
  assert (findSafeDirection b = Ok north) as Hs.
  { by rewrite findSafeDirection_ok, Hsafe. }
  split_and!; [done| |  |done].
  - intros t p. by rewrite decideAggressiveMove_ok, Hagg.
  - unfold decideMove. destruct (findNearestOpponentHead b) as [h o].
    case_bool_decide; [done|].
    rewrite predictOpponentMove_ok. simpl.
    by rewrite decideAggressiveMove_ok, Hagg.
Qed.

Lemma enclosed_player_moves_north_witness :
  let b := bot_at "me" (grid_of_rows [[1;1;1]; [1;0;1]; [1;1;1]]
                          [mkPlayer "me" (1, 1); mkPlayer "rival" (0, 0)])
                  (1, 1) in
  (∀ d, is_valid_move b d = Ok false) ∧
  @decideMove stable_std_sort b = Ok north.
Proof.
  intros b.
  assert (∀ d, is_valid_move b d = Ok false) as Hvalid.
  { intros d. destruct d; vm_compute; reflexivity. }
  split; [exact Hvalid|].
  destruct (enclosed_player_moves_north stable_std_sort) as [_ Hb].
  destruct (Hb b Hvalid) as (_ & _ & Hd & _). exact Hd.
Defined.

(** ** The territory estimator *)

(** C4: the flood fill returns the number of cells joined to [start] by
    paths of passable cells, each counted once; it returns 0 when [start] is
    outside the grid or occupied, and width × height from any inside cell of
    a grid without occupied cells. *)
Theorem reachableArea_counts_reachable (b : BotClient) (start : Cell) :
  (∃ l : list Cell,
     NoDup l ∧ (∀ c, c ∈ l ↔ reachable (state b) start c) ∧
     calculateAccessibleArea b start = Ok (Z.of_nat (length l))) ∧
  (isInsideGrid (state b) start = false ∨ grid (state b) start ≠ 0 →
   calculateAccessibleArea b start = Ok 0) ∧
  ((∀ c, isInsideGrid (state b) c = true → grid (state b) c = 0) →
   isInsideGrid (state b) start = true →
   calculateAccessibleArea b start
   = Ok (gridWidth (state b) * gridHeight (state b))).
Proof.
  split_and!.
  - apply area_counts_reachable.
  - intros Hblocked. apply area_blocked_start. unfold passable.
    destruct Hblocked as [->|Hocc]; [done|].
    apply andb_false_iff. right. by apply Z.eqb_neq.
  - apply area_empty_grid.
Qed.

Lemma reachableArea_counts_reachable_witness :
  let walled := bot_at "me" (grid_of_rows [[0;0;1;0]; [0;1;1;0]; [1;0;0;0]] [])
                       (0, 0) in
  let open := bot_at "me" (empty_grid 5 4 []) (0, 0) in
  (grid (state walled) (2, 0) ≠ 0 ∧
   calculateAccessibleArea walled (2, 0) = Ok 0) ∧
  (isInsideGrid (state walled) (0, -1) = false ∧
   calculateAccessibleArea walled (0, -1) = Ok 0) ∧
  ((∀ c, isInsideGrid (state open) c = true → grid (state open) c = 0) ∧
   isInsideGrid (state open) (3, 2) = true ∧
   calculateAccessibleArea open (3, 2) = Ok (5 * 4)).
Proof.
  intros walled open.
  destruct (reachableArea_counts_reachable walled (2, 0)) as (_ & Hocc & _).
  destruct (reachableArea_counts_reachable walled (0, -1)) as (_ & Hout & _).
  destruct (reachableArea_counts_reachable open (3, 2)) as (_ & _ & Hopen).
  assert (grid (state walled) (2, 0) ≠ 0) as H1 by (vm_compute; discriminate).
  assert (isInsideGrid (state walled) (0, -1) = false) as H2 by reflexivity.
  assert (∀ c, isInsideGrid (state open) c = true → grid (state open) c = 0)
    as H3 by reflexivity.
  assert (isInsideGrid (state open) (3, 2) = true) as H4 by reflexivity.
  split_and!; [done | apply Hocc; by right | done | apply Hout; by left
              | done | done | by apply Hopen].
Defined.

(** C6: the flood fill terminates.  From any queue, whatever it holds, the
    loop ends within a number of iterations bounded by the queue length and
    the size of the grid; the loop started from [start] ends with the same
    count for every sufficient budget; and no cell is expanded twice, the
    count being the number of expanded cells. *)
Theorem flood_fill_terminates (b : BotClient) (start : Cell) :
  (∀ q : list Cell,
     ∃ n, bfs_loop (state b)
            (S (length q + 4 * (Z.to_nat (gridWidth (state b))
                                * Z.to_nat (gridHeight (state b)))))
            q ∅ 0 = Ok n) ∧
  ∃ n,
    calculateAccessibleArea b start = Ok n ∧
    (∀ fuel, (bfs_fuel (state b) ≤ fuel)%nat →
             bfs_loop (state b) fuel [start] ∅ 0 = Ok n) ∧
    NoDup (bfs_expanded (state b) (bfs_fuel (state b)) [start] ∅) ∧
    n = Z.of_nat (length (bfs_expanded (state b) (bfs_fuel (state b)) [start] ∅)).
Proof.
  split.
  - intros q. apply bfs_loop_terminates.
    pose proof (size_passable_cells (state b)) as Hs.
    assert (size (passable_cells (state b) ∖ ∅)
            ≤ size (passable_cells (state b)))%nat as Hd.
    { apply subseteq_size. intros c. rewrite elem_of_difference. tauto. }
    lia.
  - destruct (calculateAccessibleArea_size b start) as (vf & Hvf & Heq).
    exists (Z.of_nat (size vf)). split_and!.
    + done.
    + intros fuel Hfuel.
      destruct (bfs_loop_from_start (state b) start fuel Hfuel)
        as (vf' & Hvf' & ->).
      by rewrite (reachable_set_unique _ _ _ _ Hvf Hvf').
    + apply bfs_expanded_fresh.
    + apply bfs_loop_counts_expanded in Heq. lia.
Qed.

Lemma flood_fill_terminates_witness :
  let b := bot_at "me" (grid_of_rows [[0;0;1;0]; [0;1;1;0]; [1;0;0;0]] []) (0, 0) in
  (bfs_fuel (state b) ≤ 60)%nat ∧
  bfs_loop (state b) 60 [(0, 0)] ∅ 0 = Ok 3.
Proof.
  intros b. split; [vm_compute; lia|].
  destruct (flood_fill_terminates b (0, 0)) as (_ & n & Harea & Hfuel & _).
  rewrite (Hfuel 60%nat) by (vm_compute; lia).
  rewrite <- Harea. vm_compute. reflexivity.
Defined.

(** C7: filtering at enqueue time gives the same count as the flood fill
    of the source, which filters at dequeue time. *)
Theorem enqueue_filter_same_area (b : BotClient) (start : Cell) :
  reachableArea_enqueue_filter (state b) start
  = calculateAccessibleArea b start.
Proof.
  destruct (calculateAccessibleArea_size b start) as (vf & Hvf & ->).
  destruct (reachableArea_enqueue_filter_size (state b) start)
    as (vf' & Hvf' & ->).
  by rewrite (reachable_set_unique _ _ _ _ Hvf Hvf').
Qed.

Example enqueue_filter_2x2 :
  reachableArea_enqueue_filter (empty_grid 2 2 []) (0, 0) = Ok 4 ∧
  calculateAccessibleArea (bot_at "me" (empty_grid 2 2 []) (0, 0)) (0, 0) = Ok 4.
Proof. split; vm_compute; reflexivity. Qed.

(** The equality depends on marking a cell at the moment it is enqueued:
    the variant that marks at dequeue time counts the far corner of an empty
    2×2 grid twice. *)
Example mark_late_2x2 :
  bfs_mark_late_loop (empty_grid 2 2 []) 50 [(0, 0)] ∅ 0 = Ok 5.
Proof. vm_compute. reflexivity. Qed.

(** ** The occupancy lookup stays inside the grid *)

Lemma bfs_loop_in_bounds st fuel : ∀ (q : list Cell) (vis : gset Cell) area,
  bfs_loop st fuel q vis area ≠ OutOfBounds.
Proof.
  induction fuel as [|fuel IH]; intros q vis area; simpl; [done|].
  destruct q as [|current rest]; [done|].
  rewrite skip_cell_ok. simpl.
  destruct (bool_decide (current ∈ vis) || negb (passable st current));
    apply IH.
Qed.

(** C8: the lookup fails outside the bounds, and none of the engine's
    operations ever meets that failure: not the move validation, not the
    flood fill (from any queue, cells outside the grid included), not the
    opponent prediction, and so none of the decision procedures. *)
Theorem grid_lookup_stays_inside (S : StdSort) (b : BotClient) :
  (∀ c, isInsideGrid (state b) c = false →
        getGridCell (state b) c = OutOfBounds) ∧
  (∀ c, inside_and_empty (state b) c ≠ OutOfBounds) ∧
  (∀ vis c, skip_cell (state b) vis c ≠ OutOfBounds) ∧
  (∀ d, is_valid_move b d ≠ OutOfBounds) ∧
  (∀ fuel q vis area, bfs_loop (state b) fuel q vis area ≠ OutOfBounds) ∧
  (∀ start, calculateAccessibleArea b start ≠ OutOfBounds) ∧
  (∀ opponentHead, predictOpponentMove b opponentHead ≠ OutOfBounds) ∧
  findSafeDirection b ≠ OutOfBounds ∧
  (∀ target predictedHead,
     decideAggressiveMove b target predictedHead ≠ OutOfBounds) ∧
  decideMove b ≠ OutOfBounds.
Proof.
  split_and!.
  - intros c Hout. unfold getGridCell. by rewrite Hout.
  - intros c. by rewrite inside_and_empty_ok.
  - intros vis c. by rewrite skip_cell_ok.
  - intros d. by rewrite is_valid_move_ok.
  - apply bfs_loop_in_bounds.
  - intros start. apply bfs_loop_in_bounds.
  - intros h. by rewrite predictOpponentMove_ok.
  - by rewrite findSafeDirection_ok.
  - intros t p. by rewrite decideAggressiveMove_ok.
  - destruct (decideMove_ok b) as [d ->]. done.
Qed.

Lemma grid_lookup_stays_inside_witness :
  let b := bot_at "me" (empty_grid 3 3 []) (0, 0) in
  isInsideGrid (state b) (0, -1) = false ∧
  getGridCell (state b) (0, -1) = OutOfBounds ∧
  calculateAccessibleArea b (0, -1) ≠ OutOfBounds.
Proof.
  intros b.
  destruct (grid_lookup_stays_inside stable_std_sort b)
    as (Hout & _ & _ & _ & _ & Harea & _).
  split_and!; [reflexivity | by apply Hout | apply Harea].
Defined.

(** The queue does hold cells outside the grid: the neighbours of a corner
    cell are enqueued as they are. *)
Example corner_neighbours_outside :
  neighbours (0, 0) = [(0, -1); (1, 0); (0, 1); (-1, 0)] ∧
  isInsideGrid (empty_grid 3 3 []) (0, -1) = false ∧
  isInsideGrid (empty_grid 3 3 []) (-1, 0) = false.
Proof. repeat split. Qed.

(** ** Opponent prediction *)

(** C5: the prediction loop visits the neighbours of the opponent's head in
    the order {N, E, S, W} and returns the passable neighbour whose area is
    the largest, the earliest one among those of equal area; it returns the
    head itself when no neighbour is passable, or when no passable neighbour
    has a positive area. *)
Theorem predictOpponentMove_picks_first_largest (b : BotClient) (h : Cell) :
  ∃ r,
    predictOpponentMove b h = Ok r ∧
    ((∀ d, passable (state b) (vadd h (getDirectionVector d)) = false) →
     r = h) ∧
    ((∀ d a, passable (state b) (vadd h (getDirectionVector d)) = true →
             calculateAccessibleArea b (vadd h (getDirectionVector d)) = Ok a →
             a ≤ 0) →
     r = h) ∧
    ((∃ d, passable (state b) (vadd h (getDirectionVector d)) = true) →
     ∃ d a,
       r = vadd h (getDirectionVector d) ∧
       passable (state b) r = true ∧
       calculateAccessibleArea b r = Ok a ∧
       (∀ d' a',
          passable (state b) (vadd h (getDirectionVector d')) = true →
          calculateAccessibleArea b (vadd h (getDirectionVector d')) = Ok a' →
          a' ≤ a) ∧
       (∀ d' a',
          earlier d' d →
          passable (state b) (vadd h (getDirectionVector d')) = true →
          calculateAccessibleArea b (vadd h (getDirectionVector d')) = Ok a' →
          a' < a)).
Proof.
  rewrite predictOpponentMove_ok. eexists. split; [reflexivity|].
  destruct (predict_fold b h all_directions h 0)
    as [[-> Hle]|(pre & d & post & Hds & -> & Hpd & Hm & Hpre & Hpost)]; simpl.
  - split_and!; [done..|].
    intros [d Hp]. pose proof (area_of_passable_pos b _ Hp) as Hpos.
    specialize (Hle d (elem_of_all_directions d) Hp). lia.
  - split_and!.
    + intros Hnone. by rewrite Hnone in Hpd.
    + intros Hnone.
      specialize (Hnone d _ Hpd (calculateAccessibleArea_area_of b _)). lia.
    + intros _. exists d, (area_of b (vadd h (getDirectionVector d))).
      split_and!; [done | done | apply calculateAccessibleArea_area_of | |].
      * intros d' a' Hp'. rewrite calculateAccessibleArea_area_of.
        intros [= <-].
        pose proof (elem_of_all_directions d') as Hin. rewrite Hds in Hin.
        apply elem_of_app in Hin as [Hin|[->|Hin]%elem_of_cons].
        -- specialize (Hpre d' Hin Hp'). lia.
        -- lia.
        -- by apply Hpost.
      * intros d' a' Hearlier Hp'. rewrite calculateAccessibleArea_area_of.
        intros [= <-]. apply Hpre; [|done].
        by apply (earlier_in_prefix pre d post).
Qed.

Lemma predictOpponentMove_picks_first_largest_witness :
  let b := bot_at "me" (grid_of_rows [[0;0;0]; [0;1;0]; [0;0;0]] []) (0, 0) in
  (∃ d, passable (state b) (vadd (1, 1) (getDirectionVector d)) = true) ∧
  predictOpponentMove b (1, 1) = Ok (1, 0).
Proof.
  intros b.
  assert (∃ d, passable (state b) (vadd (1, 1) (getDirectionVector d)) = true)
    as Hsome by (exists north; reflexivity).
  split; [exact Hsome|].
  destruct (predictOpponentMove_picks_first_largest b (1, 1))
    as (r & -> & _ & _ & Hbest).
  destruct (Hbest Hsome) as (d & a & -> & _ & Ha & _ & Hearlier).
  destruct d; [reflexivity|exfalso..].
  - injection Ha as <-. specialize (Hearlier north 8). vm_compute in Hearlier.
    by specialize (Hearlier eq_refl eq_refl eq_refl).
  - injection Ha as <-. specialize (Hearlier north 8). vm_compute in Hearlier.
    by specialize (Hearlier eq_refl eq_refl eq_refl).
  - injection Ha as <-. specialize (Hearlier north 8). vm_compute in Hearlier.
    by specialize (Hearlier eq_refl eq_refl eq_refl).
Defined.

(** ** Scoring in aggression mode *)



Lemma wrap_int_small z : INT_MIN ≤ z ≤ INT_MAX → wrap_int z = z.
Proof.
  unfold INT_MIN, INT_MAX, wrap_int. intros Hz.
  rewrite Z.mod_small by lia. lia.
Qed.

(** Where neither the distance nor the difference leaves the [int] range,
    the score is the area minus the Manhattan distance. *)
Lemma aggressive_score_exact a cell target :
  a ≤ INT_MAX →
  manhattan cell target ≤ INT_MAX →
  INT_MIN ≤ a - manhattan cell target →
  aggressive_score a cell target = a - manhattan cell target.
Proof.
  unfold aggressive_score, manhattan, int_sub, int_add, int_abs.
  intros Ha Hm Hs.
  assert (INT_MIN = -2147483648) as Hmin by done.
  assert (INT_MAX = 2147483647) as Hmax by done.
  rewrite (wrap_int_small (cell.1 - target.1)) by lia.
  rewrite (wrap_int_small (cell.2 - target.2)) by lia.
  rewrite (wrap_int_small (Z.abs (cell.1 - target.1))) by lia.
  rewrite (wrap_int_small (Z.abs (cell.2 - target.2))) by lia.
  rewrite (wrap_int_small (Z.abs _ + Z.abs _)) by lia.
  apply wrap_int_small. lia.
Qed.






(** ** The decision driver *)

Lemma find_none_receive incoming b :
  find (λ p, String.eqb (player_name p) (name b)) (players incoming) = None →
  receiveGameState incoming b
  = mkBotClient (name b) incoming (my_player b) (rng b) (previousDirection b)
                (fallbackCounter b).
Proof. intros Hfind. unfold receiveGameState. by rewrite Hfind. Qed.

(** C2, as the code has it: when no player of the snapshot bears the
    controlled player's name, [receiveGameState] installs the snapshot and
    keeps the player record of the previous tick; the tick reports nothing
    and sends the move decided from that record on the new grid. *)
Theorem unresolved_identity_keeps_previous_player (S : StdSort)
    (b : BotClient) (incoming : GameState) :
  find (λ p, String.eqb (player_name p) (name b)) (players incoming) = None →
  state (receiveGameState incoming b) = incoming ∧
  my_player (receiveGameState incoming b) = my_player b ∧
  (∃ move b',
     decideMove (receiveGameState incoming b) = Ok move ∧
     tick incoming b = Ok (b', [SendMove move]) ∧
     my_player b' = my_player b) ∧
  (∃ move b',
     decideMove_conservative (receiveGameState incoming b) = Ok move ∧
     tick_conservative incoming b = Ok (b', [SendMove move]) ∧
     my_player b' = my_player b).
Proof.
  intros Hfind. rewrite (find_none_receive _ _ Hfind).
  split_and!; [done..| |].
  - unfold tick, sendMove. rewrite (find_none_receive _ _ Hfind).
    destruct (decideMove_ok
                (mkBotClient (name b) incoming (my_player b) (rng b)
                   (previousDirection b) (fallbackCounter b))) as [move Hmove].
    rewrite Hmove. simpl. by eexists _, _.
  - unfold tick_conservative, sendMove_conservative, decideMove_conservative.
    rewrite (find_none_receive _ _ Hfind), findSafeDirection_ok. simpl.
    by eexists _, _.
Qed.

Lemma unresolved_identity_keeps_previous_player_witness :
  find (λ p, String.eqb (player_name p) (name (bot_at "me" snapshot_before (0, 0))))
       (players snapshot_without_me) = None ∧
  my_player (receiveGameState snapshot_without_me
               (bot_at "me" snapshot_before (0, 0)))
  = mkPlayer "me" (0, 0).
Proof.
  split; [reflexivity|].
  destruct (unresolved_identity_keeps_previous_player stable_std_sort
              (bot_at "me" snapshot_before (0, 0)) snapshot_without_me eq_refl)
    as (_ & Hkept & _).
  exact Hkept.
Defined.

(** C2, as stated, fails: with "me" absent from the roster the tick is not
    an error; it sends a move, and the move is decided from the position
    recorded before: East from (0,0), West from (2,0), on the same
    snapshot. *)
Lemma unresolved_identity_decides_from_previous_position :
  find (λ p, String.eqb (player_name p) "me") (players snapshot_without_me)
  = None ∧
  (∃ b', @tick stable_std_sort snapshot_without_me
           (bot_at "me" snapshot_before (0, 0)) = Ok (b', [SendMove east]) ∧
         position (my_player b') = (0, 0)) ∧
  (∃ b', @tick stable_std_sort snapshot_without_me
           (bot_at "me" snapshot_before (2, 0)) = Ok (b', [SendMove west]) ∧
         position (my_player b') = (2, 0)) ∧
  (∃ b', @tick_conservative stable_std_sort snapshot_without_me
           (bot_at "me" snapshot_before (0, 0)) = Ok (b', [SendMove east])).
Proof.
  split_and!; [reflexivity|..]; eexists; vm_compute; split_and?; reflexivity.
Qed.

(** ** Determinism of the decision *)

Lemma decideMove_congr `{StdSort} (b1 b2 : BotClient) :
  name b1 = name b2 →
  state b1 = state b2 →
  position (my_player b1) = position (my_player b2) →
  decideMove b1 = decideMove b2 ∧
  decideMove_conservative b1 = decideMove_conservative b2.
Proof.
  destruct b1 as [n1 st1 [pn1 pos1] r1 p1 f1].
  destruct b2 as [n2 st2 [pn2 pos2] r2 p2 f2].
  simpl. intros -> -> ->. split; reflexivity.
Qed.

(** C10: the decision is a function of the snapshot and of the controlled
    player's position (with the client's fixed name): two client states that
    agree on these decide alike whatever their previous direction, random
    generator state and counters; and deciding again after [sendMove] has
    recorded the direction yields the same direction. *)
Theorem decision_is_deterministic (S : StdSort) (b1 b2 : BotClient) :
  name b1 = name b2 →
  state b1 = state b2 →
  position (my_player b1) = position (my_player b2) →
  decideMove b1 = decideMove b2 ∧
  decideMove_conservative b1 = decideMove_conservative b2 ∧
  ∀ b1' events,
    sendMove b1 = Ok (b1', events) →
    sendMove b1' = Ok (b1', events) ∧
    ∃ b2', sendMove b2 = Ok (b2', events).
Proof.
  intros Hname Hstate Hpos.
  destruct (decideMove_congr b1 b2 Hname Hstate Hpos) as [Hd Hc].
  split_and!; [done..|].
  intros b1' events Hsend. unfold sendMove in *.
  destruct (decideMove b1) as [move| |] eqn:Hmove; simpl in Hsend; [|done..].
  injection Hsend as <- <-. split.
  - destruct (decideMove_congr
                (mkBotClient (name b1) (state b1) (my_player b1) (rng b1)
                   (getDirectionValue move) (fallbackCounter b1)) b1
                eq_refl eq_refl eq_refl) as [-> _].
    rewrite Hmove. done.
  - rewrite <- Hd. simpl. by eexists.
Qed.

Lemma decision_is_deterministic_witness :
  let b1 := bot_at "me" snapshot_before (0, 0) in
  let b2 := mkBotClient "me" snapshot_before (mkPlayer "other" (0, 0)) 42 3 7 in
  name b1 = name b2 ∧
  state b1 = state b2 ∧
  position (my_player b1) = position (my_player b2) ∧
  @decideMove stable_std_sort b1 = @decideMove stable_std_sort b2.
Proof.
  intros b1 b2.
  destruct (decision_is_deterministic stable_std_sort b1 b2
              eq_refl eq_refl eq_refl) as (Hsame & _).
  split_and!; [reflexivity.. | exact Hsame].
Defined.

(** ** Bounds and the scenarios of the specification *)

(** The controlled player alone in the middle of a 5×5 grid: the four
    candidates tie at 24. *)
Definition alone_5x5 : BotClient :=
  bot_at "me"
    (grid_of_rows [[0;0;0;0;0]; [0;0;0;0;0]; [0;0;1;0;0];
                   [0;0;0;0;0]; [0;0;0;0;0]] [mkPlayer "me" (2, 2)])
    (2, 2).

Example alone_5x5_candidates :
  omap (safe_candidate alone_5x5) all_directions
  = [(north, 24); (east, 24); (south, 24); (west, 24)].
Proof. vm_compute. reflexivity. Qed.

Example alone_5x5_stable_sort :
  @decideMove stable_std_sort alone_5x5 = Ok north.
Proof. vm_compute. reflexivity. Qed.

Example alone_5x5_library_sort :
  @decideMove library_std_sort alone_5x5 = Ok north.
Proof. vm_compute. reflexivity. Qed.

Example alone_5x5_other_sort :
  @decideMove reversing_std_sort alone_5x5 = Ok west.
Proof. vm_compute. reflexivity. Qed.

(** From the corner (0,0) only East and South are candidates. *)
Example corner_candidates :
  (omap (safe_candidate (bot_at "me" (empty_grid 5 5 []) (0, 0)))
        all_directions).*1
  = [east; south].
Proof. vm_compute. reflexivity. Qed.

(** * Further properties of the engine *)

(** The direction that undoes a step. *)
Definition opposite (d : Direction) : Direction :=
  match d with
  | north => south
  | east => west
  | south => north
  | west => east
  end.

(** The number of times the body of the flood-fill loop runs (one pop of
    the queue each time): a ghost counter for [bfs_loop]. *)
Fixpoint bfs_iterations (st : GameState) (fuel : nat) (toVisit : list Cell)
    (visited : gset Cell) : nat :=
  match fuel with
  | O => O
  | S fuel' =>
    match toVisit with
    | [] => O
    | current :: rest =>
      match skip_cell st visited current with
      | Ok false =>
          S (bfs_iterations st fuel' (rest ++ neighbours current)
                            ({[current]} ∪ visited))
      | _ => S (bfs_iterations st fuel' rest visited)
      end
    end
  end.

(** [run]: the loop [while (connection.isActive()) { receiveGameState();
    sendMove(); }], over the snapshots the connection delivers while it is
    active; the events of the iterations are collected in order. *)
Fixpoint run `{StdSort} (snapshots : list GameState) (b : BotClient)
  : outcome (BotClient * list Event) :=
  match snapshots with
  | [] => Ok (b, [])
  | incoming :: rest =>
      r ← tick incoming b;
      r' ← run rest r.1;
      Ok (r'.1, r.2 ++ r'.2)
  end.

(** ** The flood fill as a function of the grid *)

Lemma vadd_opposite c d :
  vadd (vadd c (getDirectionVector d)) (getDirectionVector (opposite d)) = c.
Proof. destruct c as [x y], d; unfold vadd; simpl; f_equal; lia. Qed.

Lemma reachable_trans st a c x :
  reachable st a c → reachable st c x → reachable st a x.
Proof. intros Hac. induction 1; [done | by constructor]. Qed.

Lemma reachable_sym st a c : reachable st a c → reachable st c a.
Proof.
  induction 1 as [Hp|c d Hr IH Hp]; [by constructor|].
  apply (reachable_trans _ _ c); [|done].
  apply (reachable_move _ _ (vadd c (getDirectionVector d)) (opposite d)).
  - by constructor.
  - by rewrite vadd_opposite.
  - by apply (reachable_passable _ a).
Qed.

Lemma area_of_subset b b' start start' :
  (∀ c, reachable (state b') start' c → reachable (state b) start c) →
  area_of b' start' ≤ area_of b start.
Proof.
  intros Hsub. unfold area_of.
  destruct (calculateAccessibleArea_size b start) as (vf & Hvf & ->).
  destruct (calculateAccessibleArea_size b' start') as (vf' & Hvf' & ->).
  apply inj_le, subseteq_size. intros c Hc. apply Hvf, Hsub, Hvf', Hc.
Qed.

(** X1: the count lies between 0 and the number of cells of the grid, and
    it is 0 exactly when the start cell is not passable. *)
Theorem area_bounds (b : BotClient) (start : Cell) :
  ∃ n,
    calculateAccessibleArea b start = Ok n ∧
    0 ≤ n ≤ Z.of_nat (Z.to_nat (gridWidth (state b))
                       * Z.to_nat (gridHeight (state b))) ∧
    (n = 0 ↔ passable (state b) start = false).
Proof.
  exists (area_of b start). split_and!.
  - apply calculateAccessibleArea_area_of.
  - apply area_of_bound.
  - apply area_of_bound.
  - split.
    + intros Hz. destruct (passable (state b) start) eqn:Hp; [|done].
      pose proof (area_of_passable_pos b start Hp). lia.
    + intros Hp. unfold area_of. by rewrite (area_blocked_start b start Hp).
Qed.

(** X2: two cells joined by a passable path have the same count: the
    area is a property of the region, not of the cell the fill starts
    from. *)
Theorem area_same_in_region (b : BotClient) (a c : Cell) :
  reachable (state b) a c →
  calculateAccessibleArea b c = calculateAccessibleArea b a.
Proof.
  intros Hac. rewrite !calculateAccessibleArea_area_of. f_equal.
  apply Z.le_antisymm; apply area_of_subset; intros x Hx.
  - by apply (reachable_trans _ _ c).
  - apply (reachable_trans _ _ a); [by apply reachable_sym | done].
Qed.

Lemma area_same_in_region_witness :
  let b := bot_at "me" (grid_of_rows [[0;0;1;0]; [0;1;1;0]; [1;0;0;0]] []) (0, 0) in
  reachable (state b) (3, 0) (1, 2) ∧
  calculateAccessibleArea b (1, 2) = calculateAccessibleArea b (3, 0).
Proof.
  intros b.
  assert (reachable (state b) (3, 0) (1, 2)) as Hr.
  { apply (reachable_move _ _ (2, 2) west); [|reflexivity..].
    apply (reachable_move _ _ (3, 2) west); [|reflexivity..].
    apply (reachable_move _ _ (3, 1) south); [|reflexivity..].
    apply (reachable_move _ _ (3, 0) south); [|reflexivity..].
    by constructor. }
  split; [exact Hr | by apply area_same_in_region].
Defined.

(** X3: occupying more cells never enlarges an area: if every cell
    passable in one snapshot is passable in another, the count from any
    start in the first is at most the count in the second. *)
Theorem area_monotone (b b' : BotClient) (start : Cell) :
  (∀ c, passable (state b') c = true → passable (state b) c = true) →
  ∃ n n',
    calculateAccessibleArea b start = Ok n ∧
    calculateAccessibleArea b' start = Ok n' ∧
    n' ≤ n.
Proof.
  intros Hsub. exists (area_of b start), (area_of b' start).
  rewrite !calculateAccessibleArea_area_of. split_and!; [done..|].
  apply area_of_subset. induction 1; constructor; auto.
Qed.

Lemma area_monotone_witness :
  let b := bot_at "me" (grid_of_rows [[0;0;0]; [0;0;0]] []) (0, 0) in
  let b' := bot_at "me" (grid_of_rows [[0;3;0]; [0;0;0]] []) (0, 0) in
  (∀ c, passable (state b') c = true → passable (state b) c = true) ∧
  ∃ n n',
    calculateAccessibleArea b (0, 0) = Ok n ∧
    calculateAccessibleArea b' (0, 0) = Ok n' ∧
    n' ≤ n.
Proof.
  intros b b'.
  assert (∀ c, passable (state b') c = true → passable (state b) c = true)
    as Hsub.
  { intros c Hp. apply passable_inside in Hp. unfold passable.
    change (isInsideGrid (state b) c) with (isInsideGrid (state b') c).
    rewrite Hp. simpl. apply isInsideGrid_spec in Hp. simpl in Hp.
    destruct c as [x y]. simpl in *.
    assert (x = 0 ∨ x = 1 ∨ x = 2) as [->|[->| ->]] by lia;
      assert (y = 0 ∨ y = 1) as [->| ->] by lia; reflexivity. }
  split; [exact Hsub | exact (area_monotone b b' (0, 0) Hsub)].
Defined.

(** X4: the count from [start] depends only on the passability of
    [start], of the cells reached from it and of their neighbours: two
    snapshots that agree there give the same count, whatever else differs
    (markers of occupied cells, cells of other regions, the roster). *)
Theorem area_local (b b' : BotClient) (start : Cell) :
  passable (state b) start = passable (state b') start →
  (∀ c d, reachable (state b) start c →
          passable (state b) (vadd c (getDirectionVector d))
          = passable (state b') (vadd c (getDirectionVector d))) →
  calculateAccessibleArea b' start = calculateAccessibleArea b start.
Proof.
  intros Hstart Hnear. rewrite !calculateAccessibleArea_area_of. f_equal.
  assert (∀ x, reachable (state b) start x → reachable (state b') start x)
    as Hfwd.
  { induction 1 as [Hp|c d Hr IH Hp].
    - constructor. by rewrite <- Hstart.
    - constructor; [done|]. by rewrite <- Hnear. }
  assert (∀ x, reachable (state b') start x → reachable (state b) start x)
    as Hbwd.
  { induction 1 as [Hp|c d Hr IH Hp].
    - constructor. by rewrite Hstart.
    - constructor; [done|]. by rewrite Hnear. }
  apply Z.le_antisymm; by apply area_of_subset.
Qed.

Lemma area_local_witness :
  let b := bot_at "me" (grid_of_rows [[0;1;0]; [1;1;0]] []) (0, 0) in
  let b' := bot_at "you" (grid_of_rows [[0;7;1]; [5;0;0]]
                            [mkPlayer "you" (2, 1)]) (2, 1) in
  passable (state b) (0, 0) = passable (state b') (0, 0) ∧
  (∀ c d, reachable (state b) (0, 0) c →
          passable (state b) (vadd c (getDirectionVector d))
          = passable (state b') (vadd c (getDirectionVector d))) ∧
  calculateAccessibleArea b' (0, 0) = calculateAccessibleArea b (0, 0).
Proof.
  intros b b'.
  assert (∀ c, reachable (state b) (0, 0) c → c = (0, 0)) as Honly.
  { induction 1 as [Hp|c d Hr IH Hp]; [done|]. subst c.
    destruct d; vm_compute in Hp; discriminate. }
  assert (∀ c d, reachable (state b) (0, 0) c →
            passable (state b) (vadd c (getDirectionVector d))
            = passable (state b') (vadd c (getDirectionVector d))) as Hnear.
  { intros c d ->%Honly. destruct d; reflexivity. }
  split_and!; [reflexivity | exact Hnear |].
  apply area_local; [reflexivity | exact Hnear].
Defined.

(** ** The cost of the flood fill *)

Lemma bfs_iterations_count st fuel :
  ∀ (q : list Cell) (vis : gset Cell) area n,
  bfs_loop st fuel q vis area = Ok n →
  bfs_iterations st fuel q vis
  = (length q + 4 * length (bfs_expanded st fuel q vis))%nat.
Proof.
  induction fuel as [|fuel IH]; intros q vis area n; simpl; [done|].
  destruct q as [|current rest]; [done|].
  rewrite skip_cell_ok. simpl.
  destruct (bool_decide (current ∈ vis) || negb (passable st current)).
  - intros Hn. rewrite (IH _ _ _ _ Hn). simpl. lia.
  - intros Hn. rewrite (IH _ _ _ _ Hn), length_app. simpl. lia.
Qed.

(** X5: the body of the flood-fill loop runs exactly 4 × area + 1 times:
    once for the start cell and once for each of the four neighbours every
    counted cell enqueues. *)
Theorem flood_fill_iterations (b : BotClient) (start : Cell) :
  ∃ n,
    calculateAccessibleArea b start = Ok n ∧
    Z.of_nat (bfs_iterations (state b) (bfs_fuel (state b)) [start] ∅)
    = 4 * n + 1.
Proof.
  exists (area_of b start).
  pose proof (calculateAccessibleArea_area_of b start) as Harea.
  split; [done|]. unfold calculateAccessibleArea in Harea.
  rewrite (bfs_iterations_count _ _ _ _ _ _ Harea).
  apply bfs_loop_counts_expanded in Harea.
  change (length [start]) with 1%nat. lia.
Qed.

Example flood_fill_iterations_3x3 :
  bfs_iterations (empty_grid 3 3 []) (bfs_fuel (empty_grid 3 3 [])) [(1, 1)] ∅
  = 37%nat.
Proof. vm_compute. reflexivity. Qed.

(** ** Move selection *)

(** X6: when one candidate's score is strictly above the score of every
    other candidate, [findBestMove] returns its direction whatever the
    sort does with equal elements. *)
Theorem findBestMove_unique_best (S : StdSort) (moves : list (Direction * Z))
    (d : Direction) (s : Z) :
  (d, s) ∈ moves →
  (∀ d' s', (d', s') ∈ moves → d' = d ∨ s' < s) →
  findBestMove moves = d.
Proof.
  intros Hin Hothers.
  destruct (findBestMove_best moves) as (s0 & Hbest & Hmax).
  { intros ->. by apply elem_of_nil in Hin. }
  destruct (Hothers _ _ Hbest) as [Heq|Hlt]; [done|].
  specialize (Hmax _ Hin). simpl in Hmax. lia.
Qed.

Lemma findBestMove_unique_best_witness :
  (south, 9) ∈ [(north, 4); (east, 4); (south, 9); (west, 4)] ∧
  (∀ d' s', (d', s') ∈ [(north, 4); (east, 4); (south, 9); (west, 4)] →
            d' = south ∨ s' < 9) ∧
  @findBestMove reversing_std_sort
    [(north, 4); (east, 4); (south, 9); (west, 4)] = south.
Proof.
  assert ((south, 9) ∈ [(north, 4); (east, 4); (south, 9); (west, 4)])
    as Hin by set_solver.
  assert (∀ d' s', (d', s') ∈ [(north, 4); (east, 4); (south, 9); (west, 4)] →
                   d' = south ∨ s' < 9) as Hothers.
  { intros d' s' Hm. repeat (apply elem_of_cons in Hm as [[= -> ->]|Hm]);
      [right; lia | right; lia | by left | right; lia |].
    by apply elem_of_nil in Hm. }
  split_and!; [done | done |].
  by apply (findBestMove_unique_best reversing_std_sort _ _ 9).
Defined.

Lemma elem_of_safe_candidates b d s :
  (d, s) ∈ omap (safe_candidate b) all_directions ↔
  passable (state b) (new_pos b d) = true ∧ s = area_of b (new_pos b d).
Proof.
  rewrite list_elem_of_omap. unfold safe_candidate. split.
  - intros (d0 & _ & Hc).
    destruct (passable (state b) (new_pos b d0)) eqn:Hp; [|done].
    by injection Hc as -> <-.
  - intros [Hp ->]. exists d. split; [apply elem_of_all_directions|].
    by rewrite Hp.
Qed.

Lemma elem_of_aggressive_candidates b target d s :
  (d, s) ∈ omap (aggressive_candidate b target) all_directions ↔
  passable (state b) (new_pos b d) = true ∧
  s = aggressive_score (area_of b (new_pos b d)) (new_pos b d) target.
Proof.
  rewrite list_elem_of_omap. unfold aggressive_candidate. split.
  - intros (d0 & _ & Hc).
    destruct (passable (state b) (new_pos b d0)) eqn:Hp; [|done].
    by injection Hc as -> <-.
  - intros [Hp ->]. exists d. split; [apply elem_of_all_directions|].
    by rewrite Hp.
Qed.

Lemma is_valid_move_true b d :
  is_valid_move b d = Ok true ↔ passable (state b) (new_pos b d) = true.
Proof.
  rewrite is_valid_move_ok. fold (new_pos b d).
  split; [by intros [= ->] | by intros ->].
Qed.

(** X7: whenever some move is valid, [findSafeDirection] returns a valid
    move, and no valid move leads to a cell with a larger area than the one
    it returns. *)
Theorem findSafeDirection_valid_and_largest (S : StdSort) (b : BotClient) :
  (∃ d0, is_valid_move b d0 = Ok true) →
  ∃ d a,
    findSafeDirection b = Ok d ∧
    is_valid_move b d = Ok true ∧
    calculateAccessibleArea b (new_pos b d) = Ok a ∧
    1 ≤ a ∧
    ∀ d' a', is_valid_move b d' = Ok true →
             calculateAccessibleArea b (new_pos b d') = Ok a' →
             a' ≤ a.
Proof.
  intros [d0 Hd0%is_valid_move_true].
  rewrite findSafeDirection_ok.
  destruct (findBestMove_best (omap (safe_candidate b) all_directions))
    as (s & Hbest & Hmax).
  { intros Hnil.
    assert ((d0, area_of b (new_pos b d0))
            ∈ omap (safe_candidate b) all_directions) as Hin
      by by apply elem_of_safe_candidates.
    rewrite Hnil in Hin. by apply elem_of_nil in Hin. }
  apply elem_of_safe_candidates in Hbest as [Hp ->].
  eexists _, _. split_and!.
  - reflexivity.
  - by apply is_valid_move_true.
  - apply calculateAccessibleArea_area_of.
  - by apply area_of_passable_pos.
  - intros d' a' Hd'%is_valid_move_true.
    rewrite calculateAccessibleArea_area_of. intros [= <-].
    apply (Hmax (d', area_of b (new_pos b d'))).
    by apply elem_of_safe_candidates.
Qed.

Lemma findSafeDirection_valid_and_largest_witness :
  let b := bot_at "me" (grid_of_rows [[0;0;0]; [1;1;1]; [0;0;1]] []) (1, 1) in
  (∃ d0, is_valid_move b d0 = Ok true) ∧
  @findSafeDirection reversing_std_sort b = Ok north.
Proof.
  intros b.
  assert (∃ d0, is_valid_move b d0 = Ok true) as Hsome
    by (exists north; reflexivity).
  split; [exact Hsome|].
  destruct (findSafeDirection_valid_and_largest reversing_std_sort b Hsome)
    as (d & a & -> & Hvalid & Ha & _ & Hmax).
  destruct d; [reflexivity|exfalso..].
  - vm_compute in Hvalid. discriminate.
  - vm_compute in Ha. injection Ha as <-.
    assert (calculateAccessibleArea b (new_pos b north) = Ok 3) as Hn
      by (vm_compute; reflexivity).
    specialize (Hmax north 3 eq_refl Hn). lia.
  - vm_compute in Hvalid. discriminate.
Defined.

(** X8: whenever some move is valid, [decideAggressiveMove] returns a
    valid move, and no valid move has a larger score, as the client computes
    it in [int] arithmetic, than the one it returns; when no candidate's
    distance or score leaves the [int] range, no valid move has a larger
    area minus Manhattan distance to the target. *)
Theorem decideAggressiveMove_valid_and_best (S : StdSort) (b : BotClient)
    (target predictedHead : Cell) :
  (∃ d0, is_valid_move b d0 = Ok true) →
  ∃ d a,
    decideAggressiveMove b target predictedHead = Ok d ∧
    is_valid_move b d = Ok true ∧
    calculateAccessibleArea b (new_pos b d) = Ok a ∧
    (∀ d' a', is_valid_move b d' = Ok true →
              calculateAccessibleArea b (new_pos b d') = Ok a' →
              aggressive_score a' (new_pos b d') target
              ≤ aggressive_score a (new_pos b d) target) ∧
    ((∀ d' a', is_valid_move b d' = Ok true →
               calculateAccessibleArea b (new_pos b d') = Ok a' →
               a' ≤ INT_MAX ∧
               manhattan (new_pos b d') target ≤ INT_MAX ∧
               INT_MIN ≤ a' - manhattan (new_pos b d') target) →
     ∀ d' a', is_valid_move b d' = Ok true →
              calculateAccessibleArea b (new_pos b d') = Ok a' →
              a' - manhattan (new_pos b d') target
              ≤ a - manhattan (new_pos b d) target).
Proof.
  intros [d0 Hd0%is_valid_move_true].
  rewrite decideAggressiveMove_ok.
  destruct (findBestMove_best
              (omap (aggressive_candidate b target) all_directions))
    as (s & Hbest & Hmax).
  { intros Hnil.
    assert ((d0, aggressive_score (area_of b (new_pos b d0)) (new_pos b d0)
                   target)
            ∈ omap (aggressive_candidate b target) all_directions) as Hin
      by by apply elem_of_aggressive_candidates.
    rewrite Hnil in Hin. by apply elem_of_nil in Hin. }
  apply elem_of_aggressive_candidates in Hbest as [Hp ->].
  assert (∀ d' a', is_valid_move b d' = Ok true →
            calculateAccessibleArea b (new_pos b d') = Ok a' →
            aggressive_score a' (new_pos b d') target
            ≤ aggressive_score (area_of b (new_pos b (findBestMove
                 (omap (aggressive_candidate b target) all_directions))))
                (new_pos b (findBestMove
                   (omap (aggressive_candidate b target) all_directions)))
                target) as Hcomputed.
  { intros d' a' Hd'%is_valid_move_true.
    rewrite calculateAccessibleArea_area_of. intros [= <-].
    apply (Hmax (d', aggressive_score (area_of b (new_pos b d'))
                       (new_pos b d') target)).
    by apply elem_of_aggressive_candidates. }
  eexists _, _. split_and!.
  - reflexivity.
  - by apply is_valid_move_true.
  - apply calculateAccessibleArea_area_of.
  - exact Hcomputed.
  - intros Hfits d' a' Hd' Ha'.
    destruct (Hfits d' a' Hd' Ha') as (? & ? & ?).
    destruct (Hfits _ _ (proj2 (is_valid_move_true b _) Hp)
                (calculateAccessibleArea_area_of b _)) as (? & ? & ?).
    rewrite <- (aggressive_score_exact a' (new_pos b d') target) by done.
    rewrite <- (aggressive_score_exact (area_of b _) (new_pos b _) target)
      by done.
    by apply Hcomputed.
Qed.

Lemma decideAggressiveMove_valid_and_best_witness :
  let b := bot_at "me" (grid_of_rows [[0;0;0]; [1;1;1]; [0;0;1]] []) (1, 1) in
  (∃ d0, is_valid_move b d0 = Ok true) ∧
  @decideAggressiveMove reversing_std_sort b (1, 2) (0, 2) = Ok south.
Proof.
  intros b.
  assert (∃ d0, is_valid_move b d0 = Ok true) as Hsome
    by (exists north; reflexivity).
  split; [exact Hsome|].
  destruct (decideAggressiveMove_valid_and_best reversing_std_sort b
              (1, 2) (0, 2) Hsome) as (d & a & -> & Hvalid & Ha & Hmax & _).
  destruct d; [exfalso|exfalso|reflexivity|exfalso].
  - vm_compute in Ha. injection Ha as <-.
    assert (calculateAccessibleArea b (new_pos b south) = Ok 2) as Hs
      by (vm_compute; reflexivity).
    specialize (Hmax south 2 eq_refl Hs). vm_compute in Hmax. by apply Hmax.
  - vm_compute in Hvalid. discriminate.
  - vm_compute in Hvalid. discriminate.
Defined.

Lemma findBestMove_among `{StdSort} (moves : list (Direction * Z))
    (P : Direction → Prop) :
  moves ≠ [] → (∀ d s, (d, s) ∈ moves → P d) → P (findBestMove moves).
Proof.
  intros Hne HP. destruct (findBestMove_best moves Hne) as (s & Hin & _).
  by apply (HP _ s).
Qed.

Lemma safe_candidates_nonempty b d0 :
  passable (state b) (new_pos b d0) = true →
  omap (safe_candidate b) all_directions ≠ [].
Proof.
  intros Hp Hnil.
  assert ((d0, area_of b (new_pos b d0))
          ∈ omap (safe_candidate b) all_directions) as Hin
    by by apply elem_of_safe_candidates.
  rewrite Hnil in Hin. by apply elem_of_nil in Hin.
Qed.

Lemma aggressive_candidates_nonempty b target d0 :
  passable (state b) (new_pos b d0) = true →
  omap (aggressive_candidate b target) all_directions ≠ [].
Proof.
  intros Hp Hnil.
  assert ((d0, aggressive_score (area_of b (new_pos b d0)) (new_pos b d0)
                 target)
          ∈ omap (aggressive_candidate b target) all_directions) as Hin
    by by apply elem_of_aggressive_candidates.
  rewrite Hnil in Hin. by apply elem_of_nil in Hin.
Qed.

(** X9: neither client ever steers into a wall or an occupied cell while
    a free neighbouring cell exists: whenever some move is valid, the
    direction [decideMove] returns is valid, for the aggressive client in
    either mode and for the conservative client. *)
Theorem decideMove_valid_when_possible (S : StdSort) (b : BotClient) :
  (∃ d0, is_valid_move b d0 = Ok true) →
  ∃ d dc,
    decideMove b = Ok d ∧ is_valid_move b d = Ok true ∧
    decideMove_conservative b = Ok dc ∧ is_valid_move b dc = Ok true.
Proof.
  intros [d0 Hd0%is_valid_move_true].
  assert (∃ dc, findSafeDirection b = Ok dc ∧ is_valid_move b dc = Ok true)
    as (dc & Hdc & Hvc).
  { rewrite findSafeDirection_ok. eexists. split; [reflexivity|].
    apply (findBestMove_among _ (λ d, is_valid_move b d = Ok true)).
    - by apply (safe_candidates_nonempty b d0).
    - intros d s [Hp _]%elem_of_safe_candidates. by apply is_valid_move_true. }
  unfold decideMove, decideMove_conservative.
  destruct (findNearestOpponentHead b) as [h o]. case_bool_decide.
  - by exists dc, dc.
  - rewrite predictOpponentMove_ok. simpl. rewrite decideAggressiveMove_ok.
    eexists _, dc. split_and!; [reflexivity| |done..].
    apply (findBestMove_among _ (λ d, is_valid_move b d = Ok true)).
    + by apply (aggressive_candidates_nonempty b _ d0).
    + intros d s [Hp _]%elem_of_aggressive_candidates.
      by apply is_valid_move_true.
Qed.

Lemma decideMove_valid_when_possible_witness :
  let b := bot_at "me"
             (grid_of_rows [[1;0;0]; [1;2;0]; [0;0;0]]
                [mkPlayer "me" (0, 0); mkPlayer "rival" (1, 1)])
             (0, 0) in
  (∃ d0, is_valid_move b d0 = Ok true) ∧
  @decideMove stable_std_sort b = Ok east.
Proof.
  intros b.
  assert (∃ d0, is_valid_move b d0 = Ok true) as Hsome
    by (exists east; reflexivity).
  split; [exact Hsome|].
  destruct (decideMove_valid_when_possible stable_std_sort b Hsome)
    as (d & _ & -> & Hvalid & _).
  destruct d; [exfalso|reflexivity|exfalso..];
    vm_compute in Hvalid; discriminate.
Defined.

(** ** Opponent prediction *)

Lemma vadd_direction_ne h d : vadd h (getDirectionVector d) ≠ h.
Proof. destruct h as [x y], d; unfold vadd; simpl; intros [= ? ?]; lia. Qed.

Lemma manhattan_neighbour h d : manhattan (vadd h (getDirectionVector d)) h = 1.
Proof. destruct h as [x y], d; unfold manhattan, vadd; simpl; lia. Qed.

(** X10: the predicted cell is the opponent's head exactly when none of
    the four neighbours of the head is passable; otherwise it is a passable
    cell one step away from the head. *)
Theorem predictOpponentMove_head_iff_boxed_in (b : BotClient) (h : Cell) :
  ∃ r,
    predictOpponentMove b h = Ok r ∧
    (r = h ↔ ∀ d, passable (state b) (vadd h (getDirectionVector d)) = false) ∧
    (r ≠ h → passable (state b) r = true ∧ manhattan r h = 1).
Proof.
  rewrite predictOpponentMove_ok. eexists. split; [reflexivity|].
  destruct (predict_fold b h all_directions h 0)
    as [[-> Hle]|(pre & d & post & Hds & -> & Hpd & Hm & _)]; simpl.
  - split; [|done]. split; [|done]. intros _ d.
    destruct (passable (state b) (vadd h (getDirectionVector d))) eqn:Hp;
      [|done].
    pose proof (area_of_passable_pos b _ Hp).
    specialize (Hle d (elem_of_all_directions d) Hp). lia.
  - split.
    + split.
      * intros Heq. by apply vadd_direction_ne in Heq.
      * intros Hnone. by rewrite Hnone in Hpd.
    + intros _. split; [done | apply manhattan_neighbour].
Qed.

Lemma predictOpponentMove_head_iff_boxed_in_witness :
  let b := bot_at "me" (grid_of_rows [[1;1;1]; [1;2;1]; [1;1;0]] []) (0, 0) in
  (∀ d, passable (state b) (vadd (1, 1) (getDirectionVector d)) = false) ∧
  predictOpponentMove b (1, 1) = Ok (1, 1).
Proof.
  intros b.
  assert (∀ d, passable (state b) (vadd (1, 1) (getDirectionVector d)) = false)
    as Hboxed by (intros d; destruct d; reflexivity).
  split; [exact Hboxed|].
  destruct (predictOpponentMove_head_iff_boxed_in b (1, 1))
    as (r & -> & [_ Hhead] & _).
  by rewrite (Hhead Hboxed).
Defined.

(** ** The decision driver *)

Lemma find_first {A} (f : A → bool) (l : list A) :
  (∃ x, x ∈ l ∧ f x = true) →
  ∃ pre x post,
    l = pre ++ x :: post ∧ f x = true ∧
    (∀ y, y ∈ pre → f y = false) ∧
    find f l = Some x.
Proof.
  induction l as [|a l IH]; intros (x & Hin & Hfx).
  { by apply elem_of_nil in Hin. }
  simpl. destruct (f a) eqn:Hfa.
  - exists [], a, l. split_and!; [done..| |done].
    intros y Hy. by apply elem_of_nil in Hy.
  - apply elem_of_cons in Hin as [->|Hin]; [congruence|].
    destruct IH as (pre & x' & post & -> & Hfx' & Hpre & Hfind);
      [by exists x|].
    exists (a :: pre), x', post. split_and!; [done..| |done].
    intros y [->|Hy]%elem_of_cons; auto.
Qed.

(** X11: when the snapshot lists a player with the client's name,
    [receiveGameState] installs the snapshot and the first such player of the
    roster (later players of the same name are not looked at), and leaves the
    name, the random generator, the previous direction and the counter as
    they were. *)
Theorem receiveGameState_first_match (b : BotClient) (incoming : GameState) :
  (∃ p, p ∈ players incoming ∧ player_name p = name b) →
  ∃ pre p post,
    players incoming = pre ++ p :: post ∧
    player_name p = name b ∧
    (∀ q, q ∈ pre → player_name q ≠ name b) ∧
    receiveGameState incoming b
    = mkBotClient (name b) incoming p (rng b) (previousDirection b)
                  (fallbackCounter b).
Proof.
  intros (p0 & Hin & Hname).
  destruct (find_first (λ p, String.eqb (player_name p) (name b))
              (players incoming)) as (pre & p & post & Heq & Hp & Hpre & Hfind).
  { exists p0. split; [done|]. by apply String.eqb_eq. }
  exists pre, p, post. split_and!.
  - done.
  - by apply String.eqb_eq.
  - intros q Hq%Hpre. by apply String.eqb_neq.
  - unfold receiveGameState. by rewrite Hfind.
Qed.

Lemma receiveGameState_first_match_witness :
  let incoming := grid_of_rows [[0;0;0]; [0;0;0]]
                    [mkPlayer "rival" (2, 1); mkPlayer "me" (1, 0);
                     mkPlayer "me" (0, 1)] in
  let b := bot_at "me" snapshot_before (0, 0) in
  (∃ p, p ∈ players incoming ∧ player_name p = name b) ∧
  my_player (receiveGameState incoming b) = mkPlayer "me" (1, 0).
Proof.
  intros incoming b.
  assert (∃ p, p ∈ players incoming ∧ player_name p = name b) as Hsome.
  { exists (mkPlayer "me" (1, 0)). split; [|reflexivity].
    apply elem_of_cons. right. by left. }
  split; [exact Hsome|].
  destruct (receiveGameState_first_match b incoming Hsome)
    as (pre & p & post & Heq & Hname & Hpre & ->). simpl.
  destruct pre as [|q0 [|q1 pre]]; simplify_eq/=; try done.
  exfalso. apply (Hpre (mkPlayer "me" (1, 0))); [|reflexivity].
  apply elem_of_cons. right. by left.
Defined.

Lemma tick_ok `{StdSort} incoming b :
  ∃ move,
    decideMove (receiveGameState incoming b) = Ok move ∧
    tick incoming b
    = Ok (mkBotClient (name b) incoming
            (my_player (receiveGameState incoming b)) (rng b)
            (getDirectionValue move) (fallbackCounter b),
          [SendMove move]).
Proof.
  destruct (decideMove_ok (receiveGameState incoming b)) as [move Hmove].
  exists move. split; [done|]. unfold tick, sendMove. by rewrite Hmove.
Qed.

Lemma run_cons_ok `{StdSort} incoming rest b b1 ev b' evs :
  tick incoming b = Ok (b1, ev) →
  run rest b1 = Ok (b', evs) →
  run (incoming :: rest) b = Ok (b', ev ++ evs).
Proof.
  intros Htick Hrest. change (run (incoming :: rest) b)
    with (r ← tick incoming b; r' ← run rest r.1; Ok (r'.1, r.2 ++ r'.2)).
  rewrite Htick. simpl. rewrite Hrest. done.
Qed.

(** X12: [run] never fails and sends exactly one move for every snapshot
    it receives; it ends with the last snapshot installed and with the name,
    the random generator and the counter it started with. *)
Theorem run_one_move_per_snapshot (S : StdSort) (snapshots : list GameState)
    (b : BotClient) :
  ∃ b' events,
    run snapshots b = Ok (b', events) ∧
    length events = length snapshots ∧
    name b' = name b ∧
    rng b' = rng b ∧
    fallbackCounter b' = fallbackCounter b ∧
    state b' = default (state b) (last snapshots).
Proof.
  revert b. induction snapshots as [|incoming rest IH]; intros b.
  { exists b, []. by split_and!. }
  destruct (tick_ok incoming b) as (move & _ & Htick).
  destruct (IH (mkBotClient (name b) incoming
                  (my_player (receiveGameState incoming b)) (rng b)
                  (getDirectionValue move) (fallbackCounter b)))
    as (b' & events & Hrun & Hlen & Hname & Hrng & Hcounter & Hstate).
  simpl in Hname, Hrng, Hcounter, Hstate.
  exists b', ([SendMove move] ++ events).
  split_and!; [by apply (run_cons_ok _ _ _ _ _ _ _ Htick)
              | simpl; by rewrite Hlen | done..|].
  rewrite Hstate. destruct rest as [|st rest]; [done|].
  change (last (incoming :: st :: rest)) with (last (st :: rest)).
  destruct (last (st :: rest)) eqn:Hlast; [done|].
  by apply last_None in Hlast.
Qed.

Example run_three_snapshots :
  ∃ b', @run stable_std_sort
          [snapshot_before; snapshot_without_me; snapshot_before]
          (bot_at "me" snapshot_before (2, 2))
        = Ok (b', [SendMove east; SendMove east; SendMove east]).
Proof. eexists. vm_compute. reflexivity. Qed.

Lemma receiveGameState_resolved_same incoming b1 b2 :
  name b1 = name b2 →
  (∃ p, p ∈ players incoming ∧ player_name p = name b1) →
  my_player (receiveGameState incoming b1)
  = my_player (receiveGameState incoming b2).
Proof.
  intros Hname Hsome.
  destruct (find_first (λ p, String.eqb (player_name p) (name b1))
              (players incoming)) as (pre & p & post & _ & _ & _ & Hfind).
  { destruct Hsome as (p0 & ? & ?). exists p0. split; [done|].
    by apply String.eqb_eq. }
  unfold receiveGameState. rewrite <- Hname, Hfind. done.
Qed.

(** X13: as long as every snapshot lists the client under its name, the
    moves [run] sends are determined by the snapshots and the name alone:
    two clients of the same name that differ in everything else (recorded
    player, previous snapshot, previous direction, random generator) send the
    same sequence of moves. *)
Theorem run_moves_depend_on_snapshots_only (S : StdSort)
    (snapshots : list GameState) (b1 b2 : BotClient) :
  name b1 = name b2 →
  (∀ st, st ∈ snapshots → ∃ p, p ∈ players st ∧ player_name p = name b1) →
  ∃ b1' b2' events,
    run snapshots b1 = Ok (b1', events) ∧
    run snapshots b2 = Ok (b2', events).
Proof.
  revert b1 b2. induction snapshots as [|incoming rest IH];
    intros b1 b2 Hname Hlisted.
  { by exists b1, b2, []. }
  destruct (tick_ok incoming b1) as (m1 & Hm1 & Ht1).
  destruct (tick_ok incoming b2) as (m2 & Hm2 & Ht2).
  assert (my_player (receiveGameState incoming b1)
          = my_player (receiveGameState incoming b2)) as Hplayer.
  { apply receiveGameState_resolved_same; [done|].
    apply Hlisted. by left. }
  assert (m1 = m2) as <-.
  { destruct (decideMove_congr (receiveGameState incoming b1)
                (receiveGameState incoming b2)) as [Heq _].
    - done.
    - done.
    - by rewrite Hplayer.
    - rewrite Heq, Hm2 in Hm1. by injection Hm1. }
  edestruct (IH (mkBotClient (name b1) incoming
                   (my_player (receiveGameState incoming b1)) (rng b1)
                   (getDirectionValue m1) (fallbackCounter b1))
                (mkBotClient (name b2) incoming
                   (my_player (receiveGameState incoming b2)) (rng b2)
                   (getDirectionValue m1) (fallbackCounter b2)))
    as (b1' & b2' & events & Hr1 & Hr2).
  - done.
  - intros st Hst. apply Hlisted. by right.
  - exists b1', b2', ([SendMove m1] ++ events). split.
    + by apply (run_cons_ok _ _ _ _ _ _ _ Ht1).
    + by apply (run_cons_ok _ _ _ _ _ _ _ Ht2).
Qed.

Lemma run_moves_depend_on_snapshots_only_witness :
  let b1 := bot_at "me" snapshot_before (2, 2) in
  let b2 := mkBotClient "me" snapshot_without_me (mkPlayer "ghost" (1, 0)) 5 2 9 in
  name b1 = name b2 ∧
  (∀ st, st ∈ [snapshot_before; snapshot_before] →
         ∃ p, p ∈ players st ∧ player_name p = name b1) ∧
  ∃ b1' b2' events,
    @run stable_std_sort [snapshot_before; snapshot_before] b1 = Ok (b1', events) ∧
    @run stable_std_sort [snapshot_before; snapshot_before] b2 = Ok (b2', events).
Proof.
  intros b1 b2.
  assert (∀ st, st ∈ [snapshot_before; snapshot_before] →
                ∃ p, p ∈ players st ∧ player_name p = name b1) as Hlisted.
  { intros st Hst. exists (mkPlayer "me" (0, 0)).
    repeat (apply elem_of_cons in Hst as [->|Hst]);
      [split; [by left | reflexivity]..|].
    by apply elem_of_nil in Hst. }
  split_and!; [reflexivity | exact Hlisted |].
  exact (run_moves_depend_on_snapshots_only stable_std_sort _ b1 b2
           eq_refl Hlisted).
Defined.

Lemma reachable_agree st st' start x :
  (∀ c, passable st c = passable st' c) →
  reachable st start x → reachable st' start x.
Proof.
  intros Hagree. induction 1 as [Hp|c d Hr IH Hp].
  - constructor. by rewrite <- Hagree.
  - constructor; [done|]. by rewrite <- Hagree.
Qed.

Lemma area_of_agree b b' start :
  (∀ c, passable (state b) c = passable (state b') c) →
  area_of b start = area_of b' start.
Proof.
  intros Hagree. apply Z.le_antisymm; apply area_of_subset; intros x.
  - by apply reachable_agree.
  - by apply reachable_agree.
Qed.

(** X14: the conservative client decides from its own position and from
    which cells are passable, and from nothing else: two client states that
    agree on these return the same direction, whatever their rosters, the
    markers in the occupied cells and the rest of their fields. *)
Theorem conservative_decision_reads_passability_only (S : StdSort)
    (b1 b2 : BotClient) :
  position (my_player b1) = position (my_player b2) →
  (∀ c, passable (state b1) c = passable (state b2) c) →
  decideMove_conservative b1 = decideMove_conservative b2.
Proof.
  intros Hpos Hagree. unfold decideMove_conservative.
  rewrite !findSafeDirection_ok. do 2 f_equal.
  assert (∀ d, safe_candidate b1 d = safe_candidate b2 d) as Hcand.
  { intros d. unfold safe_candidate, new_pos.
    by rewrite Hpos, Hagree, (area_of_agree b1 b2). }
  unfold all_directions. simpl. by rewrite !Hcand.
Qed.

Lemma conservative_decision_reads_passability_only_witness :
  let b1 := bot_at "me" (grid_of_rows [[1;0]; [1;0]]
                           [mkPlayer "me" (0, 0)]) (0, 0) in
  let b2 := mkBotClient "you"
              (grid_of_rows [[9;0]; [4;0]]
                 [mkPlayer "rival" (0, 1); mkPlayer "you" (0, 0)])
              (mkPlayer "you" (0, 0)) 3 2 1 in
  position (my_player b1) = position (my_player b2) ∧
  (∀ c, passable (state b1) c = passable (state b2) c) ∧
  @decideMove_conservative stable_std_sort b1
  = @decideMove_conservative stable_std_sort b2.
Proof.
  intros b1 b2.
  assert (∀ c, passable (state b1) c = passable (state b2) c) as Hagree.
  { intros [x y]. unfold passable.
    change (isInsideGrid (state b2) (x, y))
      with (isInsideGrid (state b1) (x, y)).
    destruct (isInsideGrid (state b1) (x, y)) eqn:Hin; [|done].
    apply isInsideGrid_spec in Hin. simpl in Hin.
    assert (x = 0 ∨ x = 1) as [->| ->] by lia;
      assert (y = 0 ∨ y = 1) as [->| ->] by lia; reflexivity. }
  split_and!; [reflexivity | exact Hagree |].
  by apply conservative_decision_reads_passability_only.
Defined.
